(** * caption_generator.py: the caption pipeline, embedded and verified

    The program loads a captioning model once, and then, per image path,
    decodes the image, runs the model, decodes the generated tokens into
    text and normalises that text with [clean_caption].  The embedding
    below follows [src/caption_generator.py]:

    - Python [str] values are lists of Unicode code points ([N]);
    - [re.sub], [str.strip] and [str.capitalize] are modelled after
      CPython; on the 128 ASCII code points their behaviour is written
      out, everywhere else it is read from a [UnicodeData] table that the
      development is parametric in;
    - the model, the image decoder and the tokenizer are an oracle that
      threads an abstract world;
    - [print], [try]/[except] and [sys.exit] are a small state-and-error
      monad over the two output streams; writing to standard output
      raises when its codec cannot encode the text. *)

From Stdlib Require Import String Ascii.
From Stdlib Require Import NArith PeanoNat List Bool Lia.
Import Init.Datatypes.
Import ListNotations.

Set Warnings "-register-all".
Local Open Scope N_scope.

(** ** Text: code points and the Unicode tables *)

Definition char := N.
Definition str := list char.

Definition of_string (s : String.string) : str :=
  List.map Ascii.N_of_ascii (String.list_ascii_of_string s).
Arguments of_string s%_string.

(** What CPython reads from the Unicode Character Database.  Only code
    points from 128 upwards are ever looked up in it. *)
Record UnicodeData := {
  ud_alnum : char -> bool;            (* Py_UNICODE_ISALNUM *)
  ud_tolower : char -> char;          (* simple lowercase, used by sre *)
  ud_lower_full : char -> list char;  (* _PyUnicode_ToLowerFull *)
  ud_title_full : char -> list char;  (* _PyUnicode_ToTitleFull *)
  ud_cased : char -> bool;            (* _PyUnicode_IsCased *)
  ud_case_ignorable : char -> bool    (* _PyUnicode_IsCaseIgnorable *)
}.

Definition is_ascii (c : char) : bool := c <? 128.

Definition in_range (lo hi c : char) : bool := (lo <=? c) && (c <=? hi).

Definition ascii_upper_letter (c : char) : bool := in_range 65 90 c.
Definition ascii_lower_letter (c : char) : bool := in_range 97 122 c.
Definition ascii_digit (c : char) : bool := in_range 48 57 c.

Definition ascii_lower (c : char) : char :=
  if ascii_upper_letter c then c + 32 else c.
Definition ascii_upper (c : char) : char :=
  if ascii_lower_letter c then c - 32 else c.

(** [str.isspace] on one code point: the complete list of CPython's
    [_PyUnicode_IsWhitespace]. *)
Definition isspace (c : char) : bool :=
  in_range 9 13 c || in_range 28 32 c || (c =? 133) || (c =? 160)
  || (c =? 5760) || in_range 8192 8202 c || (c =? 8232) || (c =? 8233)
  || (c =? 8239) || (c =? 8287) || (c =? 12288).

Section Unicode.

Variable U : UnicodeData.

Definition isalnum (c : char) : bool :=
  if is_ascii c
  then ascii_digit c || ascii_upper_letter c || ascii_lower_letter c
  else ud_alnum U c.

(** [\w] of a [str] pattern: alphanumeric or underscore. *)
Definition is_word (c : char) : bool := (c =? 95) || isalnum c.

Definition tolower (c : char) : char :=
  if is_ascii c then ascii_lower c else ud_tolower U c.

Definition lower_full (c : char) : list char :=
  if is_ascii c then [ascii_lower c] else ud_lower_full U c.

Definition title_full (c : char) : list char :=
  if is_ascii c then [ascii_upper c] else ud_title_full U c.

(** ** [re.sub(r'\b(a picture|an image|a photo|a photograph) of\b', '', _,
       flags=re.IGNORECASE)] *)

Definition alternatives : list str :=
  [of_string "a picture"; of_string "an image"; of_string "a photo";
   of_string "a photograph"].

Definition tail_literal : str := of_string " of".

(** One literal of the pattern against one character of the subject.
    The pattern's literals are the space and lowercase ASCII letters.  sre
    compiles an uncased literal (the space) to an exact comparison and a
    cased one to a comparison with the lowercased subject character; for
    [i] it also accepts the dotless i (code point 305). *)
Definition lit_match (l x : char) : bool :=
  if l =? 32 then x =? 32
  else (tolower x =? l) || ((l =? 105) && (tolower x =? 305)).

Definition word_opt (o : option char) : bool :=
  match o with Some c => is_word c | None => false end.

(** [\b] between the character before the position and the one at it. *)
Definition at_boundary (before next : option char) : bool :=
  xorb (word_opt before) (word_opt next).

(** Consume the literals [lit] from [s]; gives the last character passed
    and what is left. *)
Fixpoint eat (lit : str) (prev : option char) (s : str)
  : option (option char * str) :=
  match lit with
  | [] => Some (prev, s)
  | l :: lit' =>
      match s with
      | x :: s' => if lit_match l x then eat lit' (Some x) s' else None
      | [] => None
      end
  end.

(** One alternative followed by [ of\b]; the length of the match. *)
Definition try_alternative (prev : option char) (s : str) (alt : str)
  : option nat :=
  match eat (alt ++ tail_literal) prev s with
  | Some (last, rest) =>
      if at_boundary last (hd_error rest)
      then Some (length (alt ++ tail_literal)) else None
  | None => None
  end.

Fixpoint first_success (alts : list str) (prev : option char) (s : str)
  : option nat :=
  match alts with
  | [] => None
  | alt :: alts' =>
      match try_alternative prev s alt with
      | Some n => Some n
      | None => first_success alts' prev s
      end
  end.

(** The whole pattern at the start of [s], [prev] being the character
    before it in the subject. *)
Definition match_here (prev : option char) (s : str) : option nat :=
  if at_boundary prev (hd_error s)
  then first_success alternatives prev s else None.

(** The scan of [re.sub] with an empty replacement: leftmost matches,
    not overlapping.  [skip] counts the characters of the current match
    that are still to be dropped. *)
Fixpoint sub_scan (skip : nat) (prev : option char) (s : str) : str :=
  match s with
  | [] => []
  | c :: s' =>
      match skip with
      | S k => sub_scan k (Some c) s'
      | O =>
          match match_here prev s with
          | Some (S k) => sub_scan k (Some c) s'
          | _ => c :: sub_scan O (Some c) s'
          end
      end
  end.

Definition re_sub (s : str) : str := sub_scan O None s.

(** ** [str.strip()] *)

Fixpoint lstrip (s : str) : str :=
  match s with
  | c :: s' => if isspace c then lstrip s' else s
  | [] => []
  end.

Definition rstrip (s : str) : str := rev (lstrip (rev s)).

Definition strip (s : str) : str := rstrip (lstrip s).

(** ** [str.capitalize()] *)

(** First character that is not case-ignorable, if any. *)
Fixpoint skip_ignorable (s : str) : option char :=
  match s with
  | c :: s' => if ud_case_ignorable U c then skip_ignorable s' else Some c
  | [] => None
  end.

(** [handle_capital_sigma]: [before] is the text before the sigma,
    nearest character first. *)
Definition final_sigma (before after : str) : bool :=
  match skip_ignorable before with
  | Some c =>
      ud_cased U c &&
      match skip_ignorable after with
      | Some d => negb (ud_cased U d)
      | None => true
      end
  | None => false
  end.

(** [lower_ucs4] *)
Definition lower_at (before : str) (c : char) (after : str) : list char :=
  if c =? 931
  then [if final_sigma before after then 962 else 963]
  else lower_full c.

Fixpoint lower_rest (before : str) (s : str) : str :=
  match s with
  | c :: s' => lower_at before c s' ++ lower_rest (c :: before) s'
  | [] => []
  end.

(** [do_capitalize]: the first character in title case, the others in
    lower case. *)
Definition capitalize (s : str) : str :=
  match s with
  | c :: s' => title_full c ++ lower_rest [c] s'
  | [] => []
  end.

(** ** [clean_caption] *)

Definition clean_caption (caption : str) : str :=
  let caption := strip (re_sub caption) in
  capitalize caption.

End Unicode.

(** Tables with no entry beyond ASCII: every other code point is uncased
    and not alphanumeric. *)
Definition ascii_only : UnicodeData := {|
  ud_alnum := fun _ => false;
  ud_tolower := fun c => c;
  ud_lower_full := fun c => [c];
  ud_title_full := fun c => [c];
  ud_cased := fun c => ascii_upper_letter c || ascii_lower_letter c;
  ud_case_ignorable := fun c =>
    (c =? 39) || (c =? 46) || (c =? 58) || (c =? 94) || (c =? 96)
|}.

(** ** Streams, exceptions and the interpreter's exit status *)

(** What [json.dumps] is given; the serialisation itself is the
    library's. *)
Inductive json :=
| JStr (s : str)
| JList (items : list json)
| JObj (fields : list (str * json)).

(** One [print] call. *)
Inductive line :=
| Text (s : str)
| Json (v : json).

(** An [Exception] is kept as its [str(e)]; [SystemExit] is the one
    [BaseException] the program raises itself. *)
Inductive exn :=
| Exception (msg : str)
| SystemExit (code : N).

Inductive result (A : Type) :=
| Ok (a : A)
| Raise (e : exn).
Arguments Ok {A} a.
Arguments Raise {A} e.

(** What the decoder, the processor and the model do for one path: they
    hand back the decoded text or raise; what these libraries raise
    ([OSError], [UnidentifiedImageError], [RuntimeError], ...) derives from
    [Exception] and is kept as its message.  Signals such as
    [KeyboardInterrupt] are not part of the model, and the two streams
    accept every [print]. *)
Inductive outcome :=
| Decoded (text : str)
| Failed (msg : str).

(** ** [json.dumps], as the encoder writes it with its default options

    Strings are quoted, with everything outside the printable ASCII range
    escaped ([ensure_ascii]); items are joined with a comma and a space,
    keys and values with a colon and a space. *)

Definition hex_digit (d : N) : char :=
  if d <? 10 then 48 + d else 87 + d.

(** ['{0:04x}'.format(n)] for [n] below 65536. *)
Definition hex4 (n : N) : str :=
  [hex_digit ((n / 4096) mod 16); hex_digit ((n / 256) mod 16);
   hex_digit ((n / 16) mod 16); hex_digit (n mod 16)].

Definition backslash_u (n : N) : str := 92 :: 117 :: hex4 n.

Definition printable (c : char) : bool := in_range 32 126 c.

(** The replacement of one character in [py_encode_basestring_ascii]. *)
Definition escape_char (c : char) : str :=
  if c =? 34 then [92; 34]
  else if c =? 92 then [92; 92]
  else if c =? 10 then [92; 110]
  else if c =? 13 then [92; 114]
  else if c =? 9 then [92; 116]
  else if c =? 8 then [92; 98]
  else if c =? 12 then [92; 102]
  else if printable c then [c]
  else if c <? 65536 then backslash_u c
  else
    let n := c - 65536 in
    backslash_u (N.lor 55296 (N.land (N.shiftr n 10) 1023))
    ++ backslash_u (N.lor 56320 (N.land n 1023)).

Definition encode_string (s : str) : str :=
  34 :: flat_map escape_char s ++ [34].

Fixpoint json_dumps (v : json) : str :=
  match v with
  | JStr s => encode_string s
  | JList items =>
      91 ::
      (fix join (l : list json) : str :=
         match l with
         | [] => []
         | x :: l' =>
             match l' with
             | [] => json_dumps x
             | _ :: _ => json_dumps x ++ 44 :: 32 :: join l'
             end
         end) items ++ [93]
  | JObj fields =>
      123 ::
      (fix join (l : list (str * json)) : str :=
         match l with
         | [] => []
         | (k, x) :: l' =>
             match l' with
             | [] => encode_string k ++ 58 :: 32 :: json_dumps x
             | _ :: _ =>
                 encode_string k ++ 58 :: 32 :: json_dumps x
                 ++ 44 :: 32 :: join l'
             end
         end) fields ++ [125]
  end.

(** Text made of printable ASCII characters. *)
Definition Printable (s : str) : Prop :=
  Forall (fun c => printable c = true) s.

(** The text one [print] call writes, before the newline it ends with. *)
Definition render (l : line) : str :=
  match l with
  | Text s => s
  | Json v => json_dumps v
  end.

(** The codec of standard output.  [sys.stdout] encodes with the error
    handler [strict]: [can_encode] tells which code points beyond ASCII it
    encodes (every codec a terminal stream uses encodes the ASCII ones),
    and [encode_error] is the [str] of the [UnicodeEncodeError] that
    writing a text raises.  [sys.stderr] always encodes with
    [backslashreplace], so writing to it raises no such error.  Failures
    of the operating system (a closed pipe, a full disk) are not part of
    the model. *)
Record codec := {
  can_encode : char -> bool;
  encode_error : str -> str
}.

Definition encodable (out : codec) (c : char) : bool :=
  is_ascii c || can_encode out c.

Section Program.

Variable U : UnicodeData.

(** The model, the file system and the accelerator. *)
Variable World : Type.

(** [Image.open(path).convert], [processor], [model.generate] and
    [processor.decode], in this order. *)
Variable infer : World -> str -> World * outcome.

(** The [finally] clause: [del], [torch.cuda.empty_cache], [gc.collect]. *)
Variable release : World -> World.

(** The codec of [sys.stdout]. *)
Variable out : codec.

Record state := {
  world : World;
  stdout : list line;
  stderr : list line
}.

Definition M (A : Type) : Type := state -> state * result A.

Definition ret {A} (a : A) : M A := fun st => (st, Ok a).

Definition bind {A B} (m : M A) (k : A -> M B) : M B :=
  fun st =>
    match m st with
    | (st', Ok a) => k a st'
    | (st', Raise e) => (st', Raise e)
    end.

Notation "x <- m ;; k" := (bind m (fun x => k))
  (at level 61, m at next level, right associativity).
Notation "m ;;; k" := (bind m (fun _ => k))
  (at level 61, right associativity).

Definition raise {A} (e : exn) : M A := fun st => (st, Raise e).

(** [try: body / except Exception as e: handler (str e)] *)
Definition try_except {A} (body : M A) (handler : str -> M A) : M A :=
  fun st =>
    match body st with
    | (st', Raise (Exception msg)) => handler msg st'
    | other => other
    end.

(** [try: body / finally: cleanup], for a cleanup that does not raise. *)
Definition try_finally {A} (body : M A) (cleanup : state -> state) : M A :=
  fun st => let (st', r) := body st in (cleanup st', r).

(** [print(...)]: the text is encoded as it is written, so a text the
    codec cannot encode raises before anything reaches the stream. *)
Definition print_out (l : line) : M unit :=
  fun st =>
    if forallb (encodable out) (render l)
    then ({| world := world st; stdout := stdout st ++ [l];
             stderr := stderr st |}, Ok tt)
    else (st, Raise (Exception (encode_error out (render l)))).

(** [print(..., file=sys.stderr)] *)

Definition print_err (l : line) : M unit :=
  fun st => ({| world := world st; stdout := stdout st;
                stderr := stderr st ++ [l] |}, Ok tt).

Definition run_model (path : str) : M str :=
  fun st =>
    let (w, o) := infer (world st) path in
    let st' := {| world := w; stdout := stdout st; stderr := stderr st |} in
    match o with
    | Decoded text => (st', Ok text)
    | Failed msg => (st', Raise (Exception msg))
    end.

Definition cleanup (st : state) : state :=
  {| world := release (world st); stdout := stdout st; stderr := stderr st |}.

Definition is_empty (s : str) : bool :=
  match s with [] => true | _ => false end.

(** f"Error processing {path}: {str(e)}" *)
Definition error_line (path msg : str) : str :=
  of_string "Error processing " ++ path ++ of_string ": " ++ msg.

(** ** [process_image] *)

Definition process_image (path : str) : M (option str) :=
  try_finally
    (try_except
       (caption <- run_model path ;;
        let cleaned_caption := clean_caption U caption in
        if is_empty (strip cleaned_caption)
        then raise (Exception (of_string "Empty caption generated"))
        else ret (Some cleaned_caption))
       (fun e => print_err (Text (error_line path e)) ;;; ret None))
    cleanup.

(** ** [generate_batch_captions] *)

Record record := { rec_path : str; rec_caption : str }.

Fixpoint batch_loop (image_paths : list str) (results : list record)
  : M (list record) :=
  match image_paths with
  | [] => ret results
  | path :: rest =>
      caption <- process_image path ;;
      match caption with
      | Some c =>
          batch_loop rest (results ++ [{| rec_path := path; rec_caption := c |}])
      | None => batch_loop rest results
      end
  end.

Definition generate_batch_captions (image_paths : list str)
  : M (list record) :=
  batch_loop image_paths [].

(** ** The [__main__] block

    It runs once the module-level code (loading the model and the warm-up
    call) has completed; [world] is the world at that point. *)

Definition json_of_record (r : record) : json :=
  JObj [(of_string "path", JStr (rec_path r));
        (of_string "caption", JStr (rec_caption r))].

(** [sys.argv[i]] *)
Definition argv_at (argv : list str) (i : nat) : M str :=
  match nth_error argv i with
  | Some a => ret a
  | None => raise (Exception (of_string "list index out of range"))
  end.

Definition main (argv : list str) : M unit :=
  try_except
    (if Nat.ltb 2 (length argv)
     then
       results <- generate_batch_captions (skipn 1 argv) ;;
       print_out (Json (JList (List.map json_of_record results)))
     else
       path <- argv_at argv 1 ;;
       caption <- process_image path ;;
       match caption with
       | Some c => if is_empty c then ret tt else print_out (Text c)
       | None => ret tt
       end)
    (fun e =>
       print_err (Json (JObj [(of_string "error", JStr e)])) ;;;
       raise (SystemExit 1)).

(** The status the interpreter exits with: 0 at the end of the script,
    the code of a [SystemExit], 1 after an uncaught exception. *)
Definition exit_status {A} (r : result A) : N :=
  match r with
  | Ok _ => 0
  | Raise (SystemExit code) => code
  | Raise (Exception _) => 1
  end.

Definition run (argv : list str) (st : state) : state * N :=
  let (st', r) := main argv st in (st', exit_status r).

End Program.

Arguments world {World} s.
Arguments stdout {World} s.
Arguments stderr {World} s.
Arguments Build_state {World} world stdout stderr.
Arguments process_image U {World} infer release path _.
Arguments generate_batch_captions U {World} infer release image_paths _.
Arguments batch_loop U {World} infer release image_paths results _.
Arguments main U {World} infer release out argv _.
Arguments run U {World} infer release out argv st.
Arguments exit_status {A} r.

(** ** Vocabulary of the statements *)

Definition Ascii (s : str) : Prop := Forall (fun c => is_ascii c = true) s.

(** The shape of a literal of the pattern: lowercase letters and single
    spaces, a letter first and a letter last. *)
Fixpoint shape_ok (after_space : bool) (lit : str) : bool :=
  match lit with
  | [] => negb after_space
  | l :: r =>
      if l =? 32 then negb after_space && shape_ok true r
      else ascii_lower_letter l && shape_ok false r
  end.

(** The character before a position, once [w] has been passed. *)
Definition last_seen (p : option char) (w : str) : option char :=
  fold_left (fun _ x => Some x) w p.

(** Two ASCII characters that differ in case at most. *)
Definition same_letter (x y : char) : Prop :=
  is_ascii x = true /\ is_ascii y = true /\ ascii_lower x = ascii_lower y.

(** The text is empty or starts with something else than white space. *)
Definition starts_clean (s : str) : Prop :=
  match s with
  | c :: _ => isspace c = false
  | [] => True
  end.

Section Vocabulary.

Variable U : UnicodeData.
Variable World : Type.
Variable infer : World -> str -> World * outcome.
Variable release : World -> World.

(** The calls of [process_image] that a batch makes, in order, each with
    what it gave back. *)
Fixpoint calls (paths : list str) (st : state World)
  : list (str * result (option str)) :=
  match paths with
  | [] => []
  | path :: rest =>
      let (st', r) := process_image U infer release path st in
      (path, r) :: calls rest st'
  end.

(** The records of the calls that returned a caption. *)
Fixpoint successes (l : list (str * result (option str))) : list record :=
  match l with
  | [] => []
  | (path, Ok (Some c)) :: l' =>
      {| rec_path := path; rec_caption := c |} :: successes l'
  | _ :: l' => successes l'
  end.

(** [lit] occurs somewhere in [s], compared as the pattern compares. *)
Fixpoint occurs (lit s : str) : bool :=
  match eat U lit None s with
  | Some _ => true
  | None =>
      match s with
      | [] => false
      | _ :: s' => occurs lit s'
      end
  end.

Definition phrases : list str :=
  [of_string "a photo of"; of_string "an image of";
   of_string "a picture of"; of_string "a photograph of"].

Definition mentions_phrase (s : str) : bool :=
  existsb (fun ph => occurs ph s) phrases.

(** The first character in upper case, every other character as it
    was. *)
Definition upper_first (s : str) : str :=
  match s with
  | c :: r => title_full U c ++ r
  | [] => []
  end.

(** *** The text without the occurrences of the phrases, by positions *)

(** The phrase [ph] and the text [w] are the same, compared without
    regard to case as the pattern compares. *)
Fixpoint same_phrase (ph w : str) : bool :=
  match ph, w with
  | [], [] => true
  | l :: ph', x :: w' => lit_match U l x && same_phrase ph' w'
  | _, _ => false
  end.

(** The character in front of index [i], if there is one. *)
Definition char_before (s : str) (i : nat) : option char :=
  match i with
  | O => None
  | S i' => nth_error s i'
  end.

(** The phrase [ph] occurs in [s] at index [i]; when [delimited], with a
    word boundary in front of it and behind it. *)
Definition occurrence (delimited : bool) (s : str) (i : nat) (ph : str)
  : bool :=
  same_phrase ph (firstn (length ph) (skipn i s))
  && (negb delimited
      || (at_boundary U (char_before s i) (nth_error s i)
          && at_boundary U (char_before s (i + length ph))
                         (nth_error s (i + length ph)))).

(** Index [j] of [s] lies within an occurrence of one of the phrases. *)
Definition inside_occurrence (delimited : bool) (s : str) (j : nat)
  : bool :=
  existsb
    (fun ph =>
       existsb (fun i => occurrence delimited s i ph
                         && Nat.ltb j (i + length ph))
               (seq 0 (S j)))
    phrases.

(** The characters of [t], which starts at index [j] of [s], that lie
    within no occurrence. *)
Fixpoint keep_outside (delimited : bool) (s : str) (j : nat) (t : str)
  : str :=
  match t with
  | [] => []
  | c :: t' =>
      if inside_occurrence delimited s j
      then keep_outside delimited s (S j) t'
      else c :: keep_outside delimited s (S j) t'
  end.

(** [s] with every occurrence of a phrase removed. *)
Definition without_occurrences (delimited : bool) (s : str) : str :=
  keep_outside delimited s 0 s.

(** *** Trimming *)

Fixpoint drop_leading_space (s : str) : str :=
  match s with
  | c :: r => if isspace c then drop_leading_space r else s
  | [] => []
  end.

Fixpoint drop_trailing_space (s : str) : str :=
  match s with
  | c :: r =>
      if forallb isspace (c :: r) then [] else c :: drop_trailing_space r
  | [] => []
  end.

Definition trimmed (s : str) : str :=
  drop_trailing_space (drop_leading_space s).

(** The normaliser as the specification words it: every occurrence of a
    phrase removed, compared without regard to case; surrounding white
    space trimmed; the first character in upper case, every other
    character as it was. *)
Definition clean_caption_spec (caption : str) : str :=
  upper_first (trimmed (without_occurrences false caption)).

(** *** Capitalising, by positions *)

(** What the character at index [i] of [t] becomes: title case at the
    start, lower case everywhere else. *)
Definition cased_at (t : str) (i : nat) : str :=
  match nth_error t i with
  | None => []
  | Some c =>
      match i with
      | O => title_full U c
      | S _ => lower_at U (rev (firstn i t)) c (skipn (S i) t)
      end
  end.

Definition title_then_lower (t : str) : str :=
  flat_map (cased_at t) (seq 0 (length t)).

End Vocabulary.

Arguments calls U {World} infer release paths st.

Inductive subsequence {A : Type} : list A -> list A -> Prop :=
| sub_nil : subsequence [] []
| sub_take x l1 l2 : subsequence l1 l2 -> subsequence (x :: l1) (x :: l2)
| sub_skip x l1 l2 : subsequence l1 l2 -> subsequence l1 (x :: l2).

(** ** A scripted model for concrete runs *)

Fixpoint str_eqb (s t : str) : bool :=
  match s, t with
  | [], [] => true
  | x :: s', y :: t' => (x =? y) && str_eqb s' t'
  | _, _ => false
  end.

Fixpoint lookup (answers : list (str * str)) (path : str) : option str :=
  match answers with
  | [] => None
  | (p, text) :: rest => if str_eqb p path then Some text else lookup rest path
  end.

(** The model decodes the text listed for the path and fails on a path
    that is not listed; the world counts the calls. *)
Definition scripted (answers : list (str * str)) (w : nat) (path : str)
  : nat * outcome :=
  (S w,
   match lookup answers path with
   | Some text => Decoded text
   | None => Failed (of_string "No such file or directory")
   end).

Definition start : state nat :=
  {| world := 0%nat; stdout := []; stderr := [] |}.

Definition demo_answers : list (str * str) :=
  [(of_string "cat.png", of_string "an image of a cat");
   (of_string "offer.png", of_string "a photo offer");
   (of_string "dog.png", of_string "a photo of a dog running");
   (of_string "blank.png", of_string " a picture of ")].

Definition demo_model : nat -> str -> nat * outcome := scripted demo_answers.

Definition keep : nat -> nat := fun w => w.

(** A standard output that encodes ASCII only, as under
    [PYTHONIOENCODING=ascii]; the message is the one the [ascii] codec
    gives for the caption "A caf\xe9" of the run below. *)
Definition ascii_stdout : codec := {|
  can_encode := fun _ => false;
  encode_error := fun _ =>
    of_string "'ascii' codec can't encode character '\xe9' in position 5: ordinal not in range(128)"
|}.



(** An excerpt of the Unicode tables around U+0149 (329, small n preceded
    by apostrophe), whose title case is U+02BC U+004E (700, 78) in
    SpecialCasing.txt; U+02BC is a caseless modifier letter.  The runs
    below look up no other code point in it. *)
Definition ucd_excerpt : UnicodeData := {|
  ud_alnum := fun c => (c =? 329) || (c =? 700);
  ud_tolower := fun c => c;
  ud_lower_full := fun c => [c];
  ud_title_full := fun c => if c =? 329 then [700; 78] else [c];
  ud_cased := fun c =>
    ascii_upper_letter c || ascii_lower_letter c || (c =? 329);
  ud_case_ignorable := fun c =>
    (c =? 39) || (c =? 46) || (c =? 58) || (c =? 94) || (c =? 96)
    || (c =? 700)
|}.

(** Text made of ASCII code points only. *)
Definition ascii_text (s : str) : bool := forallb is_ascii s.

(** ** More vocabulary *)

Section MoreVocabulary.

Variable U : UnicodeData.
Variable World : Type.
Variable infer : World -> str -> World * outcome.
Variable release : World -> World.

(** The state once [process_image] has run on the paths, in order. *)
Definition after (paths : list str) (st : state World) : state World :=
  fold_left (fun s path => fst (process_image U infer release path s))
            paths st.

(** The record a path gets when [process_image] is run on it in [st]. *)
Definition record_of (st : state World) (path : str) : list record :=
  match process_image U infer release path st with
  | (_, Ok (Some c)) => [{| rec_path := path; rec_caption := c |}]
  | _ => []
  end.

(** The pattern matches somewhere in [s], [prev] being the character
    before [s]. *)
Fixpoint matches_anywhere (prev : option char) (s : str) : bool :=
  match s with
  | [] => false
  | c :: s' =>
      match match_here U prev s with
      | Some _ => true
      | None => matches_anywhere (Some c) s'
      end
  end.

End MoreVocabulary.

Arguments after U {World} infer release paths st.
Arguments record_of U {World} infer release st path.

(** The literals of the pattern: the space and the lowercase letters. *)
Definition pattern_char (l : char) : bool :=
  (l =? 32) || ascii_lower_letter l.

(** The call of [process_image] returned null. *)
Definition returned_null (call : str * result (option str)) : bool :=
  match snd call with
  | Ok None => true
  | _ => false
  end.

(** Two ASCII texts with the same letters, whatever their case. *)
Definition same_letters (s t : str) : bool :=
  ascii_text s && ascii_text t
  && str_eqb (List.map ascii_lower s) (List.map ascii_lower t).

(** * Facts about single characters *)

Ltac prop_bools :=
  repeat rewrite ?orb_true_iff, ?andb_true_iff, ?orb_false_iff,
    ?andb_false_iff, ?N.eqb_eq, ?N.eqb_neq, ?N.leb_le, ?N.leb_gt,
    ?N.ltb_lt, ?N.ltb_ge in *.

Ltac split_ifs :=
  repeat match goal with
    | |- context [if ?b then _ else _] => destruct b eqn:?
    | H : context [if ?b then _ else _] |- _ => destruct b eqn:?
    end.

Ltac char_facts :=
  unfold is_word, isalnum, tolower, lower_full, title_full, isspace,
    ascii_lower, ascii_upper, ascii_digit, ascii_upper_letter,
    ascii_lower_letter, is_ascii, in_range in *;
  split_ifs; prop_bools; try lia; try discriminate; try tauto.

Section CharFacts.

Variable U : UnicodeData.

Lemma lit_match_space (x : char) :
  lit_match U 32 x = true -> x = 32.
Proof. unfold lit_match; simpl; intros H; now apply N.eqb_eq. Qed.

Lemma lit_match_letter (l x : char) :
  is_ascii x = true -> ascii_lower_letter l = true ->
  lit_match U l x = true -> ascii_lower x = l.
Proof. unfold lit_match. intros Hx Hl H. char_facts. Qed.

Lemma lit_match_letter_word (l x : char) :
  is_ascii x = true -> ascii_lower_letter l = true ->
  lit_match U l x = true -> is_word U x = true.
Proof.
  intros Hx Hl H. pose proof (lit_match_letter _ _ Hx Hl H) as E.
  clear H. char_facts.
Qed.

Lemma isspace_not_word (c : char) :
  is_ascii c = true -> isspace c = true -> is_word U c = false.
Proof. intros Hc Hs. char_facts. Qed.

End CharFacts.

(** * Facts about the pattern and the scan *)




Lemma ascii_text_Ascii (s : str) : ascii_text s = true <-> Ascii s.
Proof.
  unfold ascii_text, Ascii. rewrite forallb_forall, Forall_forall. tauto.
Qed.

Section ScanFacts.

Variable U : UnicodeData.

Lemma alternatives_shape :
  forall alt, In alt alternatives ->
              shape_ok true (alt ++ tail_literal) = true.
Proof.
  intros alt H. simpl in H.
  repeat (destruct H as [<- | H]; [reflexivity |]). contradiction.
Qed.

Lemma eat_prev_irrelevant (l : char) (lit : str) (p q : option char)
      (s : str) :
  eat U (l :: lit) p s = eat U (l :: lit) q s.
Proof. reflexivity. Qed.

Lemma eat_split (lit : str) :
  forall p s last rest,
    eat U lit p s = Some (last, rest) ->
    exists w, s = w ++ rest /\ length w = length lit /\
              last = last_seen p w.
Proof.
  induction lit as [| l lit IH]; intros p s last rest H; simpl in H.
  - injection H as <- <-. now exists [].
  - destruct s as [| x s']; [discriminate |].
    destruct (lit_match U l x); [| discriminate].
    destruct (IH _ _ _ _ H) as (w & -> & Hlen & ->).
    exists (x :: w). simpl. auto.
Qed.

(** After a literal of the right shape, the last character passed is a
    word character. *)
Lemma eat_last_word (lit : str) :
  forall b p s last rest,
    Ascii s -> shape_ok b lit = true -> word_opt U p = negb b ->
    eat U lit p s = Some (last, rest) ->
    word_opt U last = true.
Proof.
  induction lit as [| l lit IH]; intros b p s last rest Hs Hsh Hp H;
    simpl in *.
  - injection H as <- <-. rewrite Hp. now rewrite Hsh.
  - destruct s as [| x s']; [discriminate |].
    destruct (lit_match U l x) eqn:Hm; [| discriminate].
    inversion Hs as [| ? ? Hx Hs']; subst.
    destruct (l =? 32) eqn:Hl.
    + apply N.eqb_eq in Hl; subst l.
      apply andb_true_iff in Hsh as [_ Hsh].
      apply lit_match_space in Hm; subst x.
      apply (IH true (Some 32) s' last rest); auto.
    + apply andb_true_iff in Hsh as [Hlet Hsh].
      apply (IH false (Some x) s' last rest); auto. simpl.
      eapply lit_match_letter_word; eauto.
Qed.

Lemma eat_first_word (lit : str) (p : option char) (s : str) r :
  Ascii s -> shape_ok true lit = true -> eat U lit p s = Some r ->
  word_opt U (hd_error s) = true.
Proof.
  intros Hs Hsh H. destruct lit as [| l lit]; [discriminate |].
  simpl in *. destruct s as [| x s']; [discriminate |].
  destruct (lit_match U l x) eqn:Hm; [| discriminate].
  inversion Hs; subst.
  destruct (l =? 32); [discriminate |].
  apply andb_true_iff in Hsh as [Hlet _].
  simpl. eapply lit_match_letter_word; eauto.
Qed.

Lemma first_success_inv (alts : list str) (p : option char) (s : str) n :
  first_success U alts p s = Some n ->
  exists alt, In alt alts /\ try_alternative U p s alt = Some n.
Proof.
  induction alts as [| a alts IH]; simpl; [discriminate |].
  destruct (try_alternative U p s a) eqn:E.
  - intros [= <-]. eauto.
  - intros H. destruct (IH H) as (alt & Hin & Ht). eauto.
Qed.

Lemma first_success_some (alts : list str) (p : option char) (s : str)
      alt n :
  In alt alts -> try_alternative U p s alt = Some n ->
  exists m, first_success U alts p s = Some m.
Proof.
  induction alts as [| a alts IH]; simpl; [contradiction |].
  intros [-> | Hin] Ht.
  - rewrite Ht. eauto.
  - destruct (try_alternative U p s a); eauto.
Qed.

Lemma try_alternative_inv (p : option char) (s alt : str) n :
  try_alternative U p s alt = Some n ->
  exists last rest,
    eat U (alt ++ tail_literal) p s = Some (last, rest) /\
    at_boundary U last (hd_error rest) = true /\
    n = length (alt ++ tail_literal).
Proof.
  unfold try_alternative.
  destruct (eat U (alt ++ tail_literal) p s) as [[last rest] |];
    [| discriminate].
  destruct (at_boundary U last (hd_error rest)) eqn:E; [| discriminate].
  intros [= <-]. eauto.
Qed.

(** What a match at the start of [s] tells about [s] and its context. *)
Lemma match_here_inv (p : option char) (s : str) n :
  Ascii s -> match_here U p s = Some n ->
  word_opt U p = false /\ word_opt U (hd_error s) = true /\
  exists k w rest, n = S k /\ s = w ++ rest /\ length w = n /\
                   word_opt U (hd_error rest) = false.
Proof.
  intros Hs H. unfold match_here in H.
  destruct (at_boundary U p (hd_error s)) eqn:Hb; [| discriminate].
  apply first_success_inv in H as (alt & Hin & Ht).
  apply try_alternative_inv in Ht as (last & rest & He & Hb' & ->).
  pose proof (alternatives_shape _ Hin) as Hsh.
  pose proof (eat_first_word _ _ _ _ Hs Hsh He) as Hw.
  assert (Hl : word_opt U last = true).
  { destruct (alt ++ tail_literal) as [| l lit] eqn:E; [discriminate |].
    rewrite (eat_prev_irrelevant l lit p (Some 32)) in He.
    eapply (eat_last_word (l :: lit) true (Some 32)); eauto. }
  unfold at_boundary in Hb, Hb'. rewrite Hw in Hb. rewrite Hl in Hb'.
  destruct (eat_split _ _ _ _ _ He) as (w & -> & Hlen & _).
  repeat split.
  - now destruct (word_opt U p).
  - assumption.
  - destruct (alt ++ tail_literal) as [| l lit] eqn:E.
    { destruct alt; discriminate. }
    exists (length lit), w, rest. simpl in *. repeat split; auto.
    now destruct (word_opt U (hd_error rest)).
Qed.

Lemma match_here_prev (p q : option char) (s : str) :
  word_opt U p = word_opt U q -> match_here U p s = match_here U q s.
Proof.
  intros H. unfold match_here, at_boundary. rewrite H.
  destruct (xorb _ _); reflexivity.
Qed.

Lemma sub_scan_hit (p : option char) (c : char) (s : str) k :
  match_here U p (c :: s) = Some (S k) ->
  sub_scan U 0 p (c :: s) = sub_scan U k (Some c) s.
Proof. intros H. simpl sub_scan. now rewrite H. Qed.

Lemma sub_scan_miss (p : option char) (c : char) (s : str) :
  (forall k, match_here U p (c :: s) <> Some (S k)) ->
  sub_scan U 0 p (c :: s) = c :: sub_scan U 0 (Some c) s.
Proof.
  intros H. simpl sub_scan.
  destruct (match_here U p (c :: s)) as [[| k] |] eqn:E; auto.
  now destruct (H k).
Qed.

Lemma sub_scan_skip (w : str) :
  forall p rest,
    sub_scan U (length w) p (w ++ rest) = sub_scan U 0 (last_seen p w) rest.
Proof.
  induction w as [| x w IH]; intros p rest; [reflexivity |].
  simpl. apply IH.
Qed.

Lemma sub_scan_ascii (s : str) :
  forall k p, Ascii s -> Ascii (sub_scan U k p s).
Proof.
  induction s as [| c s IH]; intros k p Hs; simpl; [constructor |].
  inversion Hs; subst.
  destruct k; [| now apply IH].
  destruct (match_here U p (c :: s)) as [[| j] |];
    try (constructor; auto); now apply IH.
Qed.

Lemma sub_scan_length (s : str) :
  forall k p, (length (sub_scan U k p s) <= length s)%nat.
Proof.
  induction s as [| c s IH]; intros k p; simpl; [lia |].
  destruct k; [| specialize (IH k (Some c)); lia].
  destruct (match_here U p (c :: s)) as [[| j] |]; simpl;
    try (specialize (IH 0%nat (Some c)); lia).
  specialize (IH j (Some c)); lia.
Qed.

End ScanFacts.

(** * The scan leaves nothing to remove *)

Section Rescan.

Variable U : UnicodeData.

(** A literal that is read from the output of the scan, after a character
    the scan has kept, is read from the input just as well. *)
Lemma eat_scan (lit : str) :
  forall b c s last rest,
    Ascii s -> shape_ok b lit = true -> is_word U c = negb b ->
    eat U lit (Some c) (sub_scan U 0 (Some c) s) = Some (last, rest) ->
    at_boundary U last (hd_error rest) = true ->
    exists rest',
      eat U lit (Some c) s = Some (last, rest') /\
      at_boundary U last (hd_error rest') = true.
Proof.
  induction lit as [| l lit IH]; intros b c s last rest Hs Hsh Hc He Hb.
  - simpl in He. injection He as <- <-. simpl in Hsh.
    destruct b; [discriminate |]. simpl in Hc.
    exists s. split; [reflexivity |].
    destruct s as [| x s']; [now (unfold at_boundary; simpl; rewrite Hc) |].
    destruct (is_word U x) eqn:Hx.
    + rewrite sub_scan_miss in Hb; auto.
      intros k E. unfold match_here, at_boundary in E. simpl in E.
      rewrite Hc, Hx in E. discriminate.
    + unfold at_boundary. simpl. now rewrite Hc, Hx.
  - destruct s as [| x s']; [discriminate |].
    destruct (match_here U (Some c) (x :: s')) as [n |] eqn:E.
    + exfalso.
      destruct (match_here_inv U _ _ _ Hs E)
        as (Hp & _ & k & w & rest0 & -> & Hw & Hlen & Hr).
      simpl in Hp. rewrite Hp in Hc. destruct b; [| discriminate].
      simpl in Hsh. destruct (l =? 32); [discriminate |].
      apply andb_true_iff in Hsh as [Hl _].
      destruct w as [| y w]; [discriminate |].
      injection Hw as <- ->. injection Hlen as <-.
      rewrite (sub_scan_hit U _ _ _ _ E), sub_scan_skip in He.
      apply Forall_inv_tail, Forall_app in Hs as [_ Hr0].
      destruct rest0 as [| d r0]; [discriminate |].
      rewrite sub_scan_miss in He; auto.
      * simpl in He. destruct (lit_match U l d) eqn:Hm; [| discriminate].
        simpl in Hr. inversion Hr0; subst.
        erewrite lit_match_letter_word in Hr; eauto. discriminate.
      * intros j Ej. apply match_here_inv in Ej as (_ & Hd & _); auto.
        rewrite Hd in Hr. discriminate.
    + rewrite sub_scan_miss in He; auto;
        [| intros k; rewrite E; discriminate].
      simpl in He. simpl.
      destruct (lit_match U l x) eqn:Hm; [| discriminate].
      inversion Hs as [| ? ? Hx Hs']; subst.
      simpl in Hsh.
      destruct (l =? 32) eqn:Hl.
      * apply N.eqb_eq in Hl; subst l.
        apply andb_true_iff in Hsh as [_ Hsh].
        apply lit_match_space in Hm; subst x.
        apply (IH true 32 s' last rest); auto.
      * apply andb_true_iff in Hsh as [Hlet Hsh].
        apply (IH false x s' last rest); auto.
        simpl. eapply lit_match_letter_word; eauto.
Qed.

(** Where the scan found no match and kept [c], its output has no match
    either. *)
Lemma no_new_match (p q : option char) (c : char) (s : str) :
  Ascii (c :: s) ->
  (forall k, match_here U p (c :: s) <> Some (S k)) ->
  p = q \/ is_word U c = false ->
  match_here U q (c :: sub_scan U 0 (Some c) s) = None.
Proof.
  intros Hs Hmiss Hpq.
  destruct (match_here U q (c :: sub_scan U 0 (Some c) s)) as [n |] eqn:E;
    [exfalso | reflexivity].
  assert (Hout : Ascii (c :: sub_scan U 0 (Some c) s)).
  { inversion Hs; subst. constructor; auto. now apply sub_scan_ascii. }
  unfold match_here in E.
  change (hd_error (c :: sub_scan U 0 (Some c) s)) with (Some c) in E.
  destruct (at_boundary U q (Some c)) eqn:Hb; [| discriminate].
  apply first_success_inv in E as (alt & Hin & Ht).
  apply try_alternative_inv in Ht as (last & rest & He & Hb' & ->).
  pose proof (alternatives_shape _ Hin) as Hsh.
  pose proof (eat_first_word U _ _ _ _ Hout Hsh He) as Hw. simpl in Hw.
  assert (Hq : word_opt U q = false).
  { unfold at_boundary in Hb. simpl in Hb. rewrite Hw in Hb.
    now destruct (word_opt U q). }
  assert (Hp : word_opt U p = false).
  { destruct Hpq as [-> | Hc]; [assumption | congruence]. }
  assert (Ht : exists n, try_alternative U p (c :: s) alt = Some n).
  { unfold try_alternative.
    destruct (alt ++ tail_literal) as [| l lit] eqn:El; [discriminate |].
    simpl in He |- *.
    destruct (lit_match U l c) eqn:Hm; [| discriminate].
    simpl in Hsh. destruct (l =? 32); [discriminate |].
    apply andb_true_iff in Hsh as [_ Hsh].
    inversion Hs; subst.
    destruct (eat_scan lit false c s last rest) as (rest' & -> & ->); eauto. }
  destruct Ht as (n & Ht).
  destruct (first_success_some U _ _ _ _ _ Hin Ht) as (m & Hm).
  assert (Em : match_here U p (c :: s) = Some m).
  { unfold match_here, at_boundary. simpl. rewrite Hp, Hw. assumption. }
  destruct (match_here_inv U _ _ _ Hs Em) as (_ & _ & k & _ & _ & -> & _).
  exact (Hmiss k Em).
Qed.

(** Scanning the output of a scan changes nothing.  [p] is the character
    before [s] in the input and [q] the one before it in the output; they
    differ only behind a match that was removed. *)
Lemma sub_scan_fixed (n : nat) :
  forall s p q,
    (length s <= n)%nat -> Ascii s ->
    p = q \/ (word_opt U q = false /\ word_opt U (hd_error s) = false) ->
    sub_scan U 0 q (sub_scan U 0 p s) = sub_scan U 0 p s.
Proof.
  induction n as [| n IH]; intros s p q Hlen Hs Hpq.
  - destruct s; [reflexivity | simpl in Hlen; lia].
  - destruct s as [| c s']; [reflexivity |].
    destruct (match_here U p (c :: s')) as [m |] eqn:E.
    + destruct (match_here_inv U _ _ _ Hs E)
        as (Hp & _ & k & w & rest & -> & Hw & Hl & Hr).
      destruct w as [| y w]; [discriminate |].
      injection Hw as <- ->. injection Hl as <-.
      rewrite (sub_scan_hit U _ _ _ _ E), sub_scan_skip.
      apply Forall_inv_tail, Forall_app in Hs as [_ Hr0].
      simpl in Hlen. rewrite length_app in Hlen.
      apply IH; [lia | assumption |].
      right. split; [| assumption].
      destruct Hpq as [<- | [Hq _]]; assumption.
    + assert (Hmiss : forall k, match_here U p (c :: s') <> Some (S k))
        by (intros k; rewrite E; discriminate).
      rewrite (sub_scan_miss U _ _ _ Hmiss).
      assert (Hq : match_here U q (c :: sub_scan U 0 (Some c) s') = None).
      { apply (no_new_match p); auto.
        destruct Hpq as [-> | [_ Hc]]; [now left | now right]. }
      rewrite sub_scan_miss.
      * f_equal. apply IH; [simpl in Hlen; lia | | now left].
        now inversion Hs.
      * intros k. rewrite Hq. discriminate.
Qed.

Lemma re_sub_fixed (s : str) :
  Ascii s -> re_sub U (re_sub U s) = re_sub U s.
Proof.
  intros Hs. unfold re_sub.
  apply (sub_scan_fixed (length s)); auto.
Qed.

End Rescan.

(** * Stripping and capitalising keep a text without matches *)



Section StripFacts.

Variable U : UnicodeData.

Lemma same_letter_lit_match (l x y : char) :
  same_letter x y -> lit_match U l x = lit_match U l y.
Proof.
  intros (Hx & Hy & E). unfold lit_match, tolower. rewrite Hx, Hy, E.
  destruct (l =? 32); [| reflexivity].
  apply eq_iff_eq_true. char_facts.
Qed.

Lemma same_letter_word (x y : char) :
  same_letter x y -> is_word U x = is_word U y.
Proof.
  intros (Hx & Hy & E). unfold is_word, isalnum. rewrite Hx, Hy.
  apply eq_iff_eq_true. char_facts.
Qed.

Lemma same_letter_space (x y : char) :
  same_letter x y -> isspace x = isspace y.
Proof.
  intros (Hx & Hy & E). apply eq_iff_eq_true. char_facts.
Qed.

Lemma same_letter_hd_word (s t : str) :
  Forall2 same_letter s t ->
  word_opt U (hd_error s) = word_opt U (hd_error t).
Proof.
  intros [| x y s' t' H _]; [reflexivity |]. simpl.
  now apply same_letter_word.
Qed.

Lemma same_letter_Ascii (s t : str) :
  Forall2 same_letter s t -> Ascii s /\ Ascii t.
Proof.
  induction 1 as [| x y s t (Hx & Hy & _) _ [IH1 IH2]];
    split; constructor; auto.
Qed.

(** Reading a literal from two texts that differ in case only. *)
Lemma eat_same_letter (lit : str) :
  forall p q s t,
    Forall2 same_letter s t -> word_opt U p = word_opt U q ->
    match eat U lit p s, eat U lit q t with
    | Some (l1, r1), Some (l2, r2) =>
        word_opt U l1 = word_opt U l2 /\ Forall2 same_letter r1 r2
    | None, None => True
    | _, _ => False
    end.
Proof.
  induction lit as [| l lit IH]; intros p q s t Hst Hpq; simpl.
  - auto.
  - destruct Hst as [| x y s t Hxy Hst]; [exact I |].
    rewrite (same_letter_lit_match l _ _ Hxy).
    destruct (lit_match U l y); [| exact I].
    apply IH; [assumption |]. simpl. now apply same_letter_word.
Qed.

Lemma match_here_same_letter (p q : option char) (s t : str) :
  Forall2 same_letter s t -> word_opt U p = word_opt U q ->
  match_here U p s = match_here U q t.
Proof.
  intros Hst Hpq. unfold match_here, at_boundary.
  rewrite Hpq, (same_letter_hd_word _ _ Hst).
  destruct (xorb _ _); [| reflexivity].
  induction alternatives as [| alt alts IH]; [reflexivity |].
  simpl. rewrite IH.
  replace (try_alternative U q t alt) with (try_alternative U p s alt);
    [reflexivity |].
  unfold try_alternative.
  pose proof (eat_same_letter (alt ++ tail_literal) p q _ _ Hst Hpq) as H.
  destruct (eat U (alt ++ tail_literal) p s) as [[l1 r1] |],
           (eat U (alt ++ tail_literal) q t) as [[l2 r2] |];
    try contradiction; [| reflexivity].
  destruct H as [Hl Hr]. unfold at_boundary.
  now rewrite Hl, (same_letter_hd_word _ _ Hr).
Qed.

Lemma sub_scan_prev (p q : option char) (s : str) :
  word_opt U p = word_opt U q -> sub_scan U 0 p s = sub_scan U 0 q s.
Proof.
  intros H. destruct s as [| c s]; [reflexivity |].
  simpl. now rewrite (match_here_prev U p q _ H).
Qed.

(** A text the scan leaves as it is has no match at its start. *)
Lemma fixed_cons (p : option char) (c : char) (s : str) :
  Ascii (c :: s) -> sub_scan U 0 p (c :: s) = c :: s ->
  match_here U p (c :: s) = None /\ sub_scan U 0 (Some c) s = s.
Proof.
  intros Hs H.
  destruct (match_here U p (c :: s)) as [m |] eqn:E.
  - exfalso.
    destruct (match_here_inv U _ _ _ Hs E) as (_ & _ & k & _ & _ & -> & _).
    rewrite (sub_scan_hit U _ _ _ _ E) in H.
    pose proof (sub_scan_length U s k (Some c)) as L.
    rewrite H in L. simpl in L. lia.
  - rewrite sub_scan_miss in H by (intros k; rewrite E; discriminate).
    injection H as H. auto.
Qed.

Lemma fixed_same_letter (s t : str) :
  Forall2 same_letter s t ->
  forall p q, word_opt U p = word_opt U q ->
              sub_scan U 0 p s = s -> sub_scan U 0 q t = t.
Proof.
  induction 1 as [| x y s t Hxy Hst IH]; intros p q Hpq H; [reflexivity |].
  assert (Hs : Ascii (x :: s)).
  { apply (same_letter_Ascii (x :: s) (y :: t)). now constructor. }
  destruct (fixed_cons _ _ _ Hs H) as [E H'].
  rewrite sub_scan_miss.
  - f_equal. apply (IH (Some x)); [| assumption].
    simpl. now apply same_letter_word.
  - intros k.
    rewrite <- (match_here_same_letter p q (x :: s) (y :: t)), E;
      [discriminate | now constructor | assumption].
Qed.

(** ** [lstrip] and [rstrip] *)

Lemma lstrip_split (s : str) :
  exists ws, s = ws ++ lstrip s /\ Forall (fun c => isspace c = true) ws.
Proof.
  induction s as [| c s (ws & E & Hws)]; [now exists [] |].
  simpl. destruct (isspace c) eqn:Hc.
  - exists (c :: ws). simpl. split; [now f_equal | now constructor].
  - now exists [].
Qed.

Lemma rstrip_split (s : str) :
  exists ws, s = rstrip s ++ ws /\ Forall (fun c => isspace c = true) ws.
Proof.
  destruct (lstrip_split (rev s)) as (ws & E & Hws).
  exists (rev ws). split.
  - unfold rstrip. rewrite <- rev_app_distr, <- E. now rewrite rev_involutive.
  - now apply Forall_rev.
Qed.

Lemma lstrip_starts_clean (s : str) : starts_clean (lstrip s).
Proof.
  induction s as [| c s IH]; [exact I |].
  simpl. destruct (isspace c) eqn:Hc; [assumption | exact Hc].
Qed.

Lemma starts_clean_lstrip (s : str) : starts_clean s -> lstrip s = s.
Proof. destruct s as [| c s]; [reflexivity |]. simpl. now intros ->. Qed.

Lemma rstrip_starts_clean (s : str) :
  starts_clean s -> starts_clean (rstrip s).
Proof.
  intros H. destruct (rstrip_split s) as (ws & E & _).
  destruct (rstrip s) as [| c r]; [exact I |].
  rewrite E in H. exact H.
Qed.

Lemma strip_clean (s : str) :
  starts_clean (strip s) /\ starts_clean (rev (strip s)).
Proof.
  split.
  - apply rstrip_starts_clean, lstrip_starts_clean.
  - unfold strip, rstrip. rewrite rev_involutive. apply lstrip_starts_clean.
Qed.

Lemma clean_strip (s : str) :
  starts_clean s -> starts_clean (rev s) -> strip s = s.
Proof.
  intros H1 H2. unfold strip, rstrip.
  rewrite (starts_clean_lstrip _ H1), (starts_clean_lstrip _ H2).
  apply rev_involutive.
Qed.

Lemma lstrip_Ascii (s : str) : Ascii s -> Ascii (lstrip s).
Proof.
  intros H. destruct (lstrip_split s) as (ws & E & _).
  rewrite E in H. now apply Forall_app in H.
Qed.

Lemma strip_Ascii (s : str) : Ascii s -> Ascii (strip s).
Proof.
  intros H. apply lstrip_Ascii in H. unfold strip.
  destruct (rstrip_split (lstrip s)) as (ws & E & _).
  rewrite E in H. now apply Forall_app in H.
Qed.

End StripFacts.

Section CleanFacts.

Variable U : UnicodeData.

Lemma spaces_not_word (ws : str) :
  Ascii ws -> Forall (fun c => isspace c = true) ws ->
  word_opt U (hd_error ws) = false.
Proof.
  intros Ha Hs. destruct Hs as [| c r Hc _]; [reflexivity |].
  inversion Ha; subst. simpl. now apply isspace_not_word.
Qed.

Lemma fixed_lstrip (s : str) :
  forall p, Ascii s -> word_opt U p = false ->
            sub_scan U 0 p s = s -> sub_scan U 0 p (lstrip s) = lstrip s.
Proof.
  induction s as [| c s IH]; intros p Hs Hp H; [reflexivity |].
  simpl. destruct (isspace c) eqn:Hc; [| assumption].
  destruct (fixed_cons U _ _ _ Hs H) as [_ H'].
  inversion Hs; subst.
  apply IH; auto.
  rewrite <- H' at 2. apply sub_scan_prev.
  simpl. rewrite Hp. symmetry. now apply isspace_not_word.
Qed.

Lemma eat_app (lit : str) :
  forall p s last rest ws,
    eat U lit p s = Some (last, rest) ->
    eat U lit p (s ++ ws) = Some (last, rest ++ ws).
Proof.
  induction lit as [| l lit IH]; intros p s last rest ws H; simpl in *.
  - now injection H as <- <-.
  - destruct s as [| x s]; [discriminate |]. simpl.
    destruct (lit_match U l x); [| discriminate]. now apply IH.
Qed.

(** A match stays one when non-word characters are appended. *)
Lemma match_here_app (p : option char) (s ws : str) n :
  word_opt U (hd_error ws) = false ->
  match_here U p s = Some n ->
  exists m, match_here U p (s ++ ws) = Some m.
Proof.
  intros Hws H. unfold match_here in *.
  destruct s as [| c s].
  { destruct (at_boundary U p (hd_error [])); discriminate. }
  simpl hd_error in *.
  destruct (at_boundary U p (Some c)); [| discriminate].
  apply first_success_inv in H as (alt & Hin & Ht).
  apply try_alternative_inv in Ht as (last & rest & He & Hb & ->).
  apply (first_success_some U _ _ _ alt (length (alt ++ tail_literal)) Hin).
  unfold try_alternative.
  rewrite (eat_app _ _ _ _ _ ws He).
  destruct rest as [| d rest]; simpl; [| simpl in Hb; now rewrite Hb].
  unfold at_boundary in *. simpl in Hb. rewrite Hws.
  now rewrite Hb.
Qed.

Lemma fixed_drop_tail (t : str) :
  forall p ws,
    Ascii (t ++ ws) -> word_opt U (hd_error ws) = false ->
    sub_scan U 0 p (t ++ ws) = t ++ ws -> sub_scan U 0 p t = t.
Proof.
  induction t as [| c t IH]; intros p ws Hs Hws H; [reflexivity |].
  change ((c :: t) ++ ws) with (c :: t ++ ws) in Hs, H.
  destruct (fixed_cons U _ _ _ Hs H) as [E H'].
  rewrite sub_scan_miss.
  - f_equal. inversion Hs; subst. now apply (IH (Some c) ws).
  - intros k Ek.
    destruct (match_here_app p (c :: t) ws _ Hws Ek) as (m & Em).
    simpl in Em. congruence.
Qed.

Lemma fixed_strip (s : str) :
  Ascii s -> re_sub U s = s -> re_sub U (strip s) = strip s.
Proof.
  unfold re_sub. intros Hs H.
  apply (fixed_lstrip _ None Hs eq_refl) in H.
  apply lstrip_Ascii in Hs. unfold strip.
  destruct (rstrip_split (lstrip s)) as (ws & E & Hws).
  rewrite E in H, Hs.
  apply (fixed_drop_tail _ None ws Hs); [| assumption].
  apply Forall_app in Hs as [_ Hs]. now apply spaces_not_word.
Qed.

(** ** [capitalize] on ASCII text *)

Lemma lower_rest_ascii (s : str) :
  forall before, Ascii s -> lower_rest U before s = List.map ascii_lower s.
Proof.
  induction s as [| c s IH]; intros before Hs; [reflexivity |].
  inversion Hs as [| ? ? Hc Hs']; subst. simpl.
  rewrite IH by assumption.
  unfold lower_at, lower_full. rewrite Hc.
  destruct (c =? 931) eqn:E; [| reflexivity].
  apply N.eqb_eq in E. subst c. discriminate.
Qed.

Lemma capitalize_ascii (s : str) :
  Ascii s ->
  capitalize U s =
    match s with
    | c :: r => ascii_upper c :: List.map ascii_lower r
    | [] => []
    end.
Proof.
  intros Hs. destruct s as [| c r]; [reflexivity |].
  inversion Hs as [| ? ? Hc Hr]; subst. simpl.
  rewrite lower_rest_ascii by assumption.
  unfold title_full. now rewrite Hc.
Qed.

Lemma ascii_upper_same (c : char) :
  is_ascii c = true -> same_letter c (ascii_upper c).
Proof. intros H. unfold same_letter. char_facts. Qed.

Lemma ascii_lower_same (c : char) :
  is_ascii c = true -> same_letter c (ascii_lower c).
Proof. intros H. unfold same_letter. char_facts. Qed.

Lemma capitalize_same_letter (s : str) :
  Ascii s -> Forall2 same_letter s (capitalize U s).
Proof.
  intros Hs. rewrite capitalize_ascii by assumption.
  destruct s as [| c r]; [constructor |].
  inversion Hs as [| ? ? Hc Hr]; subst.
  constructor; [now apply ascii_upper_same |].
  clear Hs Hc. induction Hr as [| x r Hx Hr IH]; simpl; constructor; auto.
  now apply ascii_lower_same.
Qed.

Lemma capitalize_Ascii (s : str) : Ascii s -> Ascii (capitalize U s).
Proof.
  intros Hs. now apply capitalize_same_letter, same_letter_Ascii in Hs.
Qed.

Lemma ascii_upper_upper (c : char) : ascii_upper (ascii_upper c) = ascii_upper c.
Proof. char_facts. Qed.

Lemma ascii_lower_lower (c : char) : ascii_lower (ascii_lower c) = ascii_lower c.
Proof. char_facts. Qed.

Lemma capitalize_capitalize (s : str) :
  Ascii s -> capitalize U (capitalize U s) = capitalize U s.
Proof.
  intros Hs. rewrite (capitalize_ascii (capitalize U s))
    by now apply capitalize_Ascii.
  rewrite capitalize_ascii by assumption.
  destruct s as [| c r]; [reflexivity |].
  rewrite ascii_upper_upper, map_map. f_equal.
  apply map_ext. intros. apply ascii_lower_lower.
Qed.

Lemma same_letter_starts_clean (s t : str) :
  Forall2 same_letter s t -> starts_clean s -> starts_clean t.
Proof.
  intros [| x y s' t' H _]; [auto |]. simpl.
  now rewrite (same_letter_space _ _ H).
Qed.

Lemma same_letter_rev (s t : str) :
  Forall2 same_letter s t -> Forall2 same_letter (rev s) (rev t).
Proof.
  induction 1 as [| x y s t H _ IH]; [constructor |]. simpl.
  apply Forall2_app; [assumption |]. constructor; [assumption | constructor].
Qed.

(** What [clean_caption] returns is left alone by each of its three
    steps. *)
Lemma clean_caption_fixed (s : str) :
  Ascii s ->
  let c := clean_caption U s in
  Ascii c /\ re_sub U c = c /\ strip c = c /\ capitalize U c = c.
Proof.
  intros Hs. unfold clean_caption. simpl.
  set (r := re_sub U s). set (t := strip r).
  assert (Hr : Ascii r) by now apply sub_scan_ascii.
  assert (Ht : Ascii t) by now apply strip_Ascii.
  pose proof (capitalize_same_letter t Ht) as Hsame.
  assert (Fr : re_sub U r = r) by now apply re_sub_fixed.
  assert (Ft : re_sub U t = t) by now apply fixed_strip.
  destruct (strip_clean r) as [C1 C2]. fold t in C1, C2.
  repeat split.
  - now apply capitalize_Ascii.
  - unfold re_sub in *.
    now apply (fixed_same_letter U t (capitalize U t) Hsame None None eq_refl).
  - apply clean_strip.
    + now apply (same_letter_starts_clean t).
    + apply (same_letter_starts_clean (rev t)); [| assumption].
      now apply same_letter_rev.
  - now apply capitalize_capitalize.
Qed.

End CleanFacts.

(** * The text normaliser: the claims *)

(** C7: [clean_caption] maps "AN IMAGE OF a cat" to "A cat", whatever
    the Unicode tables say beyond ASCII. *)
Theorem clean_caption_cat (U : UnicodeData) :
  clean_caption U (of_string "AN IMAGE OF a cat") = of_string "A cat".
Proof. reflexivity. Qed.

(** C6, as stated, fails: the pattern takes "a photo of" away and leaves
    the article of "a dog running" in place. *)
Lemma dog_caption_keeps_article :
  clean_caption ascii_only (of_string "a photo of a dog running")
  <> of_string "Dog running".
Proof. discriminate. Qed.

(** C6, amended: [clean_caption] maps "a photo of a dog running" to
    "A dog running". *)
Theorem clean_caption_dog (U : UnicodeData) :
  clean_caption U (of_string "a photo of a dog running")
  = of_string "A dog running".
Proof. reflexivity. Qed.

(** C3, as stated, fails on U+0149: capitalising it gives U+02BC followed
    by a capital N, and capitalising that lowers the N. *)
Lemma clean_caption_not_idempotent :
  clean_caption ucd_excerpt (clean_caption ucd_excerpt [329])
  <> clean_caption ucd_excerpt [329].
Proof. discriminate. Qed.

(** C3, amended: on ASCII text [clean_caption] is idempotent. *)
Theorem clean_caption_idempotent (U : UnicodeData) (s : str) :
  ascii_text s = true ->
  clean_caption U (clean_caption U s) = clean_caption U s.
Proof.
  intros Hs. apply ascii_text_Ascii in Hs.
  destruct (clean_caption_fixed U s Hs) as (_ & Hr & Ht & Hc).
  unfold clean_caption at 1. now rewrite Hr, Ht, Hc.
Qed.

Lemma clean_caption_idempotent_witness :
  clean_caption ascii_only
    (clean_caption ascii_only (of_string " A PHOTO OF a Cat, an image of NYC "))
  = clean_caption ascii_only (of_string " A PHOTO OF a Cat, an image of NYC ").
Proof.
  apply (clean_caption_idempotent ascii_only
           (of_string " A PHOTO OF a Cat, an image of NYC ")).
  reflexivity.
Defined.

(** ** The removal step, position by position *)

Lemma hd_error_skipn_skipn {A : Type} (l : list A) (i n : nat) :
  hd_error (skipn n (skipn i l)) = nth_error l (i + n).
Proof. now rewrite skipn_skipn, hd_error_skipn, Nat.add_comm. Qed.

Section OccurrenceFacts.

Variable U : UnicodeData.

Lemma same_phrase_length (ph : str) :
  forall w, same_phrase U ph w = true -> length w = length ph.
Proof.
  induction ph as [| l ph IH]; intros [| x w] H; simpl in H;
    try discriminate; [reflexivity |].
  apply andb_true_iff in H as [_ H]. simpl. f_equal. now apply IH.
Qed.

Lemma same_phrase_nth (ph : str) :
  forall w k l x,
    same_phrase U ph w = true ->
    nth_error ph k = Some l -> nth_error w k = Some x ->
    lit_match U l x = true.
Proof.
  induction ph as [| l0 ph IH]; intros [| x0 w] k l x H Hl Hx;
    simpl in H; try discriminate.
  - destruct k; discriminate.
  - apply andb_true_iff in H as [H0 H].
    destruct k as [| k]; simpl in Hl, Hx.
    + now injection Hl as <-; injection Hx as <-.
    + eapply IH; eauto.
Qed.

(** Reading a literal is comparing it with the text of its length. *)
Lemma eat_same_phrase (lit : str) :
  forall p t,
    eat U lit p t =
      if same_phrase U lit (firstn (length lit) t)
      then Some (match lit with
                 | [] => p
                 | _ :: _ => nth_error t (length lit - 1)
                 end, skipn (length lit) t)
      else None.
Proof.
  induction lit as [| l lit IH]; intros p t; [reflexivity |].
  destruct t as [| x t]; [reflexivity |].
  simpl eat. simpl firstn. simpl same_phrase.
  destruct (lit_match U l x); [| reflexivity].
  rewrite IH. simpl andb.
  destruct (same_phrase U lit (firstn (length lit) t)); [| reflexivity].
  simpl. rewrite Nat.sub_0_r.
  destruct lit as [| l' lit]; [reflexivity |].
  simpl. now rewrite Nat.sub_0_r.
Qed.

Lemma phrases_alternatives (ph : str) :
  In ph phrases <->
  exists alt, In alt alternatives /\ ph = alt ++ tail_literal.
Proof.
  split.
  - intros H. simpl in H.
    destruct H as [<- | [<- | [<- | [<- | []]]]];
      [exists (of_string "a photo") | exists (of_string "an image")
      | exists (of_string "a picture") | exists (of_string "a photograph")];
      (split; [simpl; tauto | reflexivity]).
  - intros (alt & H & ->). simpl in H.
    repeat (destruct H as [<- | H]; [simpl; tauto |]). contradiction.
Qed.

Lemma phrase_not_empty (ph : str) :
  In ph phrases -> exists n, length ph = S n.
Proof.
  intros H. simpl in H.
  repeat (destruct H as [<- | H]; [eexists; reflexivity |]). contradiction.
Qed.

Lemma char_before_end (s : str) (i n : nat) :
  char_before s (i + S n) = nth_error s (i + n).
Proof. now rewrite Nat.add_succ_r. Qed.

(** A match of the pattern at index [i] is a delimited occurrence of a
    phrase there, and the other way round. *)
Lemma match_here_occurrence (s : str) (i n : nat) :
  match_here U (char_before s i) (skipn i s) = Some n ->
  exists ph, In ph phrases /\ length ph = n /\
             occurrence U true s i ph = true.
Proof.
  unfold match_here. rewrite hd_error_skipn.
  destruct (at_boundary U (char_before s i) (nth_error s i)) eqn:Hb;
    [| discriminate].
  intros H. apply first_success_inv in H as (alt & Hin & Ht).
  apply try_alternative_inv in Ht as (last & rest & He & Hb' & ->).
  exists (alt ++ tail_literal).
  split; [apply phrases_alternatives; eauto |]. split; [reflexivity |].
  rewrite eat_same_phrase in He.
  destruct (same_phrase U (alt ++ tail_literal)
              (firstn (length (alt ++ tail_literal)) (skipn i s))) eqn:Hs;
    [| discriminate].
  injection He as <- <-.
  unfold occurrence. rewrite Hs, Hb. simpl.
  destruct (phrase_not_empty (alt ++ tail_literal)) as (m & Hm).
  { apply phrases_alternatives; eauto. }
  rewrite hd_error_skipn_skipn in Hb'.
  destruct (alt ++ tail_literal) as [| l lit] eqn:E; [discriminate |].
  rewrite Hm in *. rewrite char_before_end.
  simpl in Hb'. rewrite Nat.sub_0_r, nth_error_skipn in Hb'. exact Hb'.
Qed.

Lemma occurrence_match_here (s : str) (i : nat) (ph : str) :
  In ph phrases -> occurrence U true s i ph = true ->
  exists n, match_here U (char_before s i) (skipn i s) = Some n.
Proof.
  intros Hin H. unfold occurrence in H. simpl in H.
  apply andb_true_iff in H as [Hs H].
  apply andb_true_iff in H as [Hb Hb'].
  destruct (phrase_not_empty ph Hin) as (m & Hm).
  apply phrases_alternatives in Hin as (alt & Hin & ->).
  unfold match_here. rewrite hd_error_skipn, Hb.
  apply (first_success_some U _ _ _ alt (length (alt ++ tail_literal)) Hin).
  unfold try_alternative. rewrite eat_same_phrase, Hs.
  rewrite hd_error_skipn_skipn.
  destruct (alt ++ tail_literal) as [| l lit] eqn:E; [discriminate |].
  rewrite Hm in *. rewrite char_before_end in Hb'.
  simpl. rewrite Nat.sub_0_r, nth_error_skipn. now rewrite Hb'.
Qed.

End OccurrenceFacts.

Section Disjoint.

Variable U : UnicodeData.

(** One character of the subject matches one literal of the pattern
    only. *)
Lemma lit_match_one (l l' x : char) :
  pattern_char l = true -> pattern_char l' = true ->
  lit_match U l x = true -> lit_match U l' x = true -> l = l'.
Proof.
  unfold pattern_char, lit_match, ascii_lower_letter, in_range.
  intros Hl Hl' H H'.
  destruct (l =? 32) eqn:E, (l' =? 32) eqn:E'.
  - apply N.eqb_eq in E, E'. congruence.
  - apply N.eqb_eq in H. subst x.
    change (tolower U 32) with 32 in H'. prop_bools. lia.
  - apply N.eqb_eq in H'. subst x.
    change (tolower U 32) with 32 in H. prop_bools. lia.
  - set (v := tolower U x) in *. prop_bools. lia.
Qed.

Lemma phrase_chars (ph : str) (k : nat) (l : char) :
  In ph phrases -> nth_error ph k = Some l -> pattern_char l = true.
Proof.
  intros Hin H.
  assert (Hall : forallb pattern_char ph = true).
  { simpl in Hin.
    repeat (destruct Hin as [<- | Hin]; [reflexivity |]). contradiction. }
  rewrite forallb_forall in Hall. apply Hall.
  eapply nth_error_In; eauto.
Qed.

(** The characters under an occurrence match its literals. *)
Lemma occurrence_chars (d : bool) (s : str) (i : nat) (ph : str)
      (k : nat) (l : char) :
  occurrence U d s i ph = true -> nth_error ph k = Some l ->
  exists x, nth_error s (i + k) = Some x /\ lit_match U l x = true.
Proof.
  unfold occurrence. intros H Hl. apply andb_true_iff in H as [H _].
  pose proof (same_phrase_length U ph _ H) as Hlen.
  assert (Hk : (k < length ph)%nat)
    by (apply nth_error_Some; congruence).
  destruct (nth_error (firstn (length ph) (skipn i s)) k) as [x |] eqn:Hx.
  - exists x. split; [| eapply same_phrase_nth; eauto].
    rewrite nth_error_firstn in Hx.
    destruct (Nat.ltb_spec k (length ph)); [| lia].
    now rewrite nth_error_skipn in Hx.
  - apply nth_error_None in Hx. lia.
Qed.

(** No phrase goes on, from an inner position, like the start of a
    phrase. *)
Lemma phrases_do_not_overlap (ph ph' : str) (k : nat) (l : char) :
  In ph phrases -> In ph' phrases ->
  (0 < k)%nat ->
  nth_error ph k = Some l -> nth_error ph' 0 = Some l ->
  (S k = length ph \/
   exists l2, nth_error ph (S k) = Some l2 /\ nth_error ph' 1 = Some l2) ->
  False.
Proof.
  intros Hin Hin' Hk Hl Hl' Hnext.
  assert (Ha : l = 97).
  { simpl in Hin'.
    destruct Hin' as [<- | [<- | [<- | [<- | []]]]];
      simpl in Hl'; congruence. }
  subst l.
  assert (Hinner :
            (ph = of_string "an image of" /\ k = 5%nat) \/
            (ph = of_string "a photograph of" /\ k = 9%nat)).
  { simpl in Hin.
    destruct Hin as [<- | [<- | [<- | [<- | []]]]];
      do 16 (destruct k as [| k]; [simpl in Hl; try lia; try discriminate;
                                  auto |]);
      destruct k; discriminate. }
  assert (H1 : nth_error ph' 1 = Some 32 \/ nth_error ph' 1 = Some 110).
  { simpl in Hin'.
    destruct Hin' as [<- | [<- | [<- | [<- | []]]]]; simpl; auto. }
  destruct Hinner as [[-> ->] | [-> ->]];
    (destruct Hnext as [Hlen | (l2 & H2 & H2')];
     [discriminate | simpl in H2; destruct H1; congruence]).
Qed.

Lemma phrases_differ (ph ph' : str) :
  In ph phrases -> In ph' phrases ->
  (forall k l l', nth_error ph k = Some l -> nth_error ph' k = Some l' ->
                  l = l') ->
  ph = ph'.
Proof.
  intros Hin Hin' H. simpl in Hin, Hin'.
  destruct Hin as [<- | [<- | [<- | [<- | []]]]];
    destruct Hin' as [<- | [<- | [<- | [<- | []]]]];
    try reflexivity; exfalso;
    first [ discriminate (H 1%nat _ _ eq_refl eq_refl)
          | discriminate (H 3%nat _ _ eq_refl eq_refl)
          | discriminate (H 7%nat _ _ eq_refl eq_refl) ].
Qed.

(** Two occurrences that start at the same index are the same phrase. *)
Lemma occurrence_one_phrase (d : bool) (s : str) (i : nat) (ph ph' : str) :
  In ph phrases -> In ph' phrases ->
  occurrence U d s i ph = true -> occurrence U d s i ph' = true ->
  ph = ph'.
Proof.
  intros Hin Hin' H H'. apply phrases_differ; auto.
  intros k l l' Hl Hl'.
  destruct (occurrence_chars d s i ph k l H Hl) as (x & Hx & Hm).
  destruct (occurrence_chars d s i ph' k l' H' Hl') as (x' & Hx' & Hm').
  rewrite Hx in Hx'. injection Hx' as <-.
  eapply lit_match_one; eauto using phrase_chars.
Qed.

(** No occurrence starts inside another one. *)
Lemma occurrences_disjoint (d : bool) (s : str) (i i' : nat)
      (ph ph' : str) :
  In ph phrases -> In ph' phrases ->
  occurrence U d s i ph = true -> occurrence U d s i' ph' = true ->
  (i < i')%nat -> (i' < i + length ph)%nat -> False.
Proof.
  intros Hin Hin' H H' Hlt Hlt'.
  set (k := (i' - i)%nat).
  assert (Hk : (k < length ph)%nat) by (unfold k; lia).
  destruct (nth_error ph k) as [l |] eqn:Hl;
    [| apply nth_error_None in Hl; lia].
  destruct (phrase_not_empty ph' Hin') as (n' & Hn').
  destruct (nth_error ph' 0) as [l0 |] eqn:Hl0;
    [| apply nth_error_None in Hl0; lia].
  destruct (occurrence_chars d s i ph k l H Hl) as (x & Hx & Hm).
  destruct (occurrence_chars d s i' ph' 0 l0 H' Hl0) as (x0 & Hx0 & Hm0).
  replace (i + k)%nat with i' in Hx by (unfold k; lia).
  rewrite Nat.add_0_r, Hx in Hx0. injection Hx0 as <-.
  assert (E : l = l0) by (eapply lit_match_one; eauto using phrase_chars).
  subst l0.
  apply (phrases_do_not_overlap ph ph' k l Hin Hin');
    [unfold k; lia | assumption | assumption |].
  destruct (Nat.eq_dec (S k) (length ph)) as [Hend | Hend]; [now left |].
  right.
  destruct (nth_error ph (S k)) as [l2 |] eqn:Hl2;
    [| apply nth_error_None in Hl2; lia].
  assert (Hlen' : (2 <= length ph')%nat).
  { simpl in Hin'.
    destruct Hin' as [<- | [<- | [<- | [<- | []]]]]; simpl; lia. }
  destruct (nth_error ph' 1) as [l1 |] eqn:Hl1;
    [| apply nth_error_None in Hl1; lia].
  destruct (occurrence_chars d s i ph (S k) l2 H Hl2) as (y & Hy & Hmy).
  destruct (occurrence_chars d s i' ph' 1 l1 H' Hl1) as (y' & Hy' & Hmy').
  replace (i + S k)%nat with (i' + 1)%nat in Hy by (unfold k; lia).
  rewrite Hy in Hy'. injection Hy' as <-.
  exists l2. split; [reflexivity |]. f_equal.
  symmetry. eapply lit_match_one; eauto using phrase_chars.
Qed.

Lemma inside_occurrence_iff (d : bool) (s : str) (j : nat) :
  inside_occurrence U d s j = true <->
  exists ph i, In ph phrases /\ (i <= j)%nat /\
               occurrence U d s i ph = true /\ (j < i + length ph)%nat.
Proof.
  unfold inside_occurrence. rewrite existsb_exists. split.
  - intros (ph & Hin & H). apply existsb_exists in H as (i & Hi & H).
    apply in_seq in Hi. apply andb_true_iff in H as [Ho Hlt].
    apply Nat.ltb_lt in Hlt. exists ph, i. repeat split; auto. lia.
  - intros (ph & i & Hin & Hi & Ho & Hlt). exists ph. split; [assumption |].
    apply existsb_exists. exists i. split; [apply in_seq; lia |].
    apply andb_true_iff. split; [assumption | now apply Nat.ltb_lt].
Qed.

Lemma skipn_cons (s : str) (j : nat) (c : char) (t : str) :
  skipn j s = c :: t -> nth_error s j = Some c /\ skipn (S j) s = t.
Proof.
  intros H. split.
  - now rewrite <- hd_error_skipn, H.
  - replace (S j) with (1 + j)%nat by reflexivity.
    now rewrite <- skipn_skipn, H.
Qed.

(** The scan against the description by positions.  [k] characters of a
    match are still to be dropped at index [j]; no occurrence that starts
    before [j] reaches beyond them. *)
Lemma scan_by_positions (s : str) :
  forall t j k,
    skipn j s = t ->
    (forall i ph, In ph phrases -> occurrence U true s i ph = true ->
                  (i < j)%nat -> (i + length ph <= j + k)%nat) ->
    (k <> O ->
     exists i ph, In ph phrases /\ occurrence U true s i ph = true /\
                  (i < j)%nat /\ (i + length ph = j + k)%nat) ->
    sub_scan U k (char_before s j) t = keep_outside U true s j t.
Proof.
  induction t as [| c t IH]; intros j k Ht Hpast Hcur; [reflexivity |].
  destruct (skipn_cons s j c t Ht) as [Hc Ht'].
  assert (Hprev : char_before s (S j) = Some c) by exact Hc.
  simpl sub_scan. simpl keep_outside.
  destruct k as [| k].
  - destruct (match_here U (char_before s j) (c :: t)) as [n |] eqn:E.
    + rewrite <- Ht in E.
      destruct (match_here_occurrence U s j n E) as (ph & Hin & Hlen & Ho).
      destruct (phrase_not_empty ph Hin) as (m & Hm).
      rewrite Hm in Hlen. subst n.
      assert (Hin_occ : inside_occurrence U true s j = true).
      { apply inside_occurrence_iff. exists ph, j.
        repeat split; auto. lia. }
      rewrite Hin_occ, <- Hprev. apply IH; [assumption | |].
      * intros i ph' Hin' Ho' Hi.
        destruct (Nat.eq_dec i j) as [-> | Hne].
        -- rewrite (occurrence_one_phrase true s j ph' ph Hin' Hin Ho' Ho).
           lia.
        -- specialize (Hpast i ph' Hin' Ho'). lia.
      * intros Hm0. exists j, ph. repeat split; auto. lia.
    + assert (Hout : inside_occurrence U true s j = false).
      { destruct (inside_occurrence U true s j) eqn:Hin_occ;
          [| reflexivity].
        apply inside_occurrence_iff in Hin_occ
          as (ph & i & Hin & Hi & Ho & Hlt).
        destruct (Nat.eq_dec i j) as [-> | Hne].
        - destruct (occurrence_match_here U s j ph Hin Ho) as (n & En).
          rewrite Ht in En. congruence.
        - specialize (Hpast i ph Hin Ho). lia. }
      rewrite Hout, <- Hprev. f_equal. apply IH; [assumption | |].
      * intros i ph Hin Ho Hi.
        destruct (Nat.eq_dec i j) as [-> | Hne].
        -- destruct (occurrence_match_here U s j ph Hin Ho) as (n & En).
           rewrite Ht in En. congruence.
        -- specialize (Hpast i ph Hin Ho). lia.
      * intros Hk. now destruct Hk.
  - destruct (Hcur (Nat.neq_succ_0 k)) as (i0 & ph0 & Hin0 & Ho0 & Hi0 & He0).
    assert (Hin_occ : inside_occurrence U true s j = true).
    { apply inside_occurrence_iff. exists ph0, i0.
      repeat split; auto; lia. }
    rewrite Hin_occ, <- Hprev. apply IH; [assumption | |].
    + intros i ph Hin Ho Hi.
      destruct (Nat.eq_dec i j) as [-> | Hne].
      * exfalso.
        apply (occurrences_disjoint true s i0 j ph0 ph Hin0 Hin Ho0 Ho);
          lia.
      * specialize (Hpast i ph Hin Ho). lia.
    + intros Hk. exists i0, ph0. repeat split; auto; lia.
Qed.

(** [re.sub] removes the characters that lie within a delimited
    occurrence of a phrase, and no other. *)
Lemma re_sub_by_positions (s : str) :
  re_sub U s = without_occurrences U true s.
Proof.
  unfold re_sub, without_occurrences.
  apply (scan_by_positions s s 0 0); [reflexivity | |].
  - intros i ph _ _ Hi. lia.
  - intros H. now destruct H.
Qed.

(** ** Stripping and capitalising, position by position *)

Lemma strip_between (s : str) :
  exists lead trail,
    s = lead ++ strip s ++ trail /\
    forallb isspace lead = true /\ forallb isspace trail = true.
Proof.
  destruct (lstrip_split s) as (lead & E & Hlead).
  destruct (rstrip_split (lstrip s)) as (trail & E' & Htrail).
  exists lead, trail. unfold strip.
  split; [now rewrite <- E', <- E |].
  split; apply forallb_forall; [rewrite Forall_forall in Hlead
                               | rewrite Forall_forall in Htrail]; auto.
Qed.

Lemma lower_rest_by_positions (r : str) :
  forall pre,
    pre <> [] ->
    lower_rest U (rev pre) r =
      flat_map (cased_at U (pre ++ r)) (seq (length pre) (length r)).
Proof.
  induction r as [| x r IH]; intros pre Hpre; [reflexivity |].
  change (lower_at U (rev pre) x r ++ lower_rest U (x :: rev pre) r =
          cased_at U (pre ++ x :: r) (length pre) ++
          flat_map (cased_at U (pre ++ x :: r))
                   (seq (S (length pre)) (length r))).
  f_equal.
  - assert (Hf : firstn (length pre) (pre ++ x :: r) = pre).
    { rewrite firstn_app, Nat.sub_diag, firstn_all2 by lia.
      apply app_nil_r. }
    assert (Hs : skipn (S (length pre)) (pre ++ x :: r) = r).
    { rewrite skipn_app, skipn_all2 by lia.
      replace (S (length pre) - length pre)%nat with 1%nat by lia.
      reflexivity. }
    assert (Hn : nth_error (pre ++ x :: r) (length pre) = Some x).
    { rewrite nth_error_app2, Nat.sub_diag by lia. reflexivity. }
    unfold cased_at. rewrite Hn, Hf, Hs.
    destruct pre; [contradiction | reflexivity].
  - specialize (IH (pre ++ [x])).
    rewrite rev_app_distr, <- app_assoc, length_app in IH. simpl in IH.
    rewrite Nat.add_1_r in IH. apply IH.
    now destruct pre.
Qed.

Lemma capitalize_by_positions (t : str) :
  capitalize U t = title_then_lower U t.
Proof.
  destruct t as [| c r]; [reflexivity |].
  unfold title_then_lower. simpl. f_equal.
  now apply (lower_rest_by_positions r [c]).
Qed.

End Disjoint.

(** ** Trimming, the other way round *)

Lemma drop_leading_space_lstrip (s : str) : drop_leading_space s = lstrip s.
Proof.
  induction s as [| c s IH]; [reflexivity |].
  simpl. now rewrite IH.
Qed.

Lemma drop_trailing_blank (ws : str) :
  forallb isspace ws = true -> drop_trailing_space ws = [].
Proof. destruct ws as [| c ws]; [reflexivity |]. simpl. now intros ->. Qed.

Lemma ends_clean_not_blank (a ws : str) :
  a <> [] -> starts_clean (rev a) -> forallb isspace (a ++ ws) = false.
Proof.
  intros Ha Hclean.
  destruct (forallb isspace (a ++ ws)) eqn:E; [| reflexivity].
  rewrite forallb_forall in E.
  destruct (rev a) as [| y r] eqn:Hr.
  - apply (f_equal (@rev char)) in Hr. rewrite rev_involutive in Hr.
    now destruct Ha.
  - simpl in Hclean. rewrite <- Hclean. symmetry. apply E.
    apply in_or_app. left. apply in_rev. rewrite Hr. now left.
Qed.

Lemma drop_trailing_space_app (a : str) :
  forall ws,
    starts_clean (rev a) -> forallb isspace ws = true ->
    drop_trailing_space (a ++ ws) = a.
Proof.
  induction a as [| c a IH]; intros ws Hclean Hws.
  - now apply drop_trailing_blank.
  - change (drop_trailing_space ((c :: a) ++ ws)) with
      (if forallb isspace ((c :: a) ++ ws) then []
       else c :: drop_trailing_space (a ++ ws)).
    rewrite (ends_clean_not_blank (c :: a) ws) by (auto; discriminate).
    f_equal. apply IH; [| assumption].
    simpl in Hclean. destruct (rev a) as [| y r]; [exact I | exact Hclean].
Qed.

Lemma strip_trimmed (s : str) : strip s = trimmed s.
Proof.
  unfold trimmed. rewrite drop_leading_space_lstrip. unfold strip.
  destruct (rstrip_split (lstrip s)) as (ws & E & Hws).
  rewrite E at 2. symmetry. apply drop_trailing_space_app.
  - unfold rstrip. rewrite rev_involutive. apply lstrip_starts_clean.
  - apply forallb_forall. rewrite Forall_forall in Hws. exact Hws.
Qed.

(** C5, as stated, fails in two ways.  [capitalize] lowers every
    character behind the first one: "a photo of NYC" gives "Nyc".  And a
    phrase is removed only where a word boundary stands in front of it and
    behind it: "a photo offer" stays as it is. *)
Lemma clean_caption_differs_from_spec :
  (clean_caption ascii_only (of_string "a photo of NYC") = of_string "Nyc" /\
   clean_caption_spec ascii_only (of_string "a photo of NYC")
   = of_string "NYC") /\
  (clean_caption ascii_only (of_string "a photo offer")
   = of_string "A photo offer" /\
   clean_caption_spec ascii_only (of_string "a photo offer")
   = of_string "Fer") /\
  clean_caption ascii_only (of_string "a photo of NYC")
  <> clean_caption_spec ascii_only (of_string "a photo of NYC").
Proof.
  repeat split; try (vm_compute; reflexivity).
  vm_compute. discriminate.
Qed.

(** C5, amended: for every input, the output of [clean_caption] is the
    input without the characters of every occurrence of a phrase that has
    a word boundary in front of it and behind it, the phrase compared
    without regard to case; without the white space around what is left;
    and with its first character in title case and every other character
    in lower case.  On ASCII text that is the first character in upper
    case and every other one lowered, position by position, and it is
    the first-character-only reading when no capital letter stands
    behind the first character. *)
Theorem clean_caption_letters (U : UnicodeData) (s : str) :
  let t := trimmed (without_occurrences U true s) in
  clean_caption U s = title_then_lower U t /\
  (ascii_text s = true ->
   length (clean_caption U s) = length t /\
   (forall i x, nth_error t i = Some x ->
      nth_error (clean_caption U s) i =
        Some (match i with O => ascii_upper x | S _ => ascii_lower x end)) /\
   (forallb (fun x => negb (ascii_upper_letter x)) (tl t) = true ->
    clean_caption U s = upper_first U t)).
Proof.
  intros t.
  assert (Et : strip (re_sub U s) = t).
  { unfold t. now rewrite <- re_sub_by_positions, strip_trimmed. }
  unfold clean_caption. rewrite Et.
  split; [apply capitalize_by_positions |].
  intros Hs. apply ascii_text_Ascii in Hs.
  assert (Ht : Ascii t).
  { rewrite <- Et. now apply strip_Ascii, sub_scan_ascii. }
  rewrite (capitalize_ascii U t Ht).
  destruct t as [| c r]; simpl.
  - repeat split; auto. intros [| i] x; discriminate.
  - inversion Ht as [| ? ? Hc Hr]; subst.
    repeat split.
    + now rewrite length_map.
    + intros [| i] x; simpl.
      * now intros [= ->].
      * intros H. now rewrite nth_error_map, H.
    + intros Hlow. unfold title_full. rewrite Hc. simpl. f_equal.
      clear Hc Ht Et. induction r as [| y r IH]; [reflexivity |].
      simpl in Hlow. apply andb_true_iff in Hlow as [Hy Hlow].
      inversion Hr; subst. simpl. f_equal; [| now apply IH].
      unfold ascii_lower. now destruct (ascii_upper_letter y).
Qed.

Lemma clean_caption_letters_witness :
  clean_caption ascii_only (of_string "a picture of Two DOGS, a photo offer ")
  = title_then_lower ascii_only (of_string "Two DOGS, a photo offer") /\
  length (clean_caption ascii_only
            (of_string "a picture of Two DOGS, a photo offer "))
  = 23%nat /\
  nth_error (clean_caption ascii_only
               (of_string "a picture of Two DOGS, a photo offer ")) 5
  = Some (ascii_lower 79) /\
  clean_caption ascii_only (of_string "a photo of a dog")
  = upper_first ascii_only (of_string "a dog").
Proof.
  destruct (clean_caption_letters ascii_only
              (of_string "a picture of Two DOGS, a photo offer "))
    as (H0 & H).
  destruct (H eq_refl) as (H1 & H2 & _).
  destruct (clean_caption_letters ascii_only (of_string "a photo of a dog"))
    as (_ & H').
  destruct (H' eq_refl) as (_ & _ & H3).
  split; [exact H0 | split; [exact H1 | split]].
  - exact (H2 5%nat 79 eq_refl).
  - exact (H3 eq_refl).
Defined.

(** * The printed JSON *)

Lemma json_nested_ind (P : json -> Prop) :
  (forall s, P (JStr s)) ->
  (forall items, Forall P items -> P (JList items)) ->
  (forall fields, Forall (fun kv => P (snd kv)) fields -> P (JObj fields)) ->
  forall v, P v.
Proof.
  intros Hstr Hlist Hobj. fix IH 1. intros [s | items | fields].
  - apply Hstr.
  - apply Hlist. induction items as [| x items IHi]; constructor;
      [apply IH | assumption].
  - apply Hobj. induction fields as [| [k x] fields IHf]; constructor;
      [apply IH | assumption].
Qed.

Lemma hex_digit_printable (d : N) :
  d < 16 -> printable (hex_digit d) = true.
Proof.
  intros H. unfold printable, hex_digit, in_range.
  destruct (d <? 10) eqn:E; prop_bools; lia.
Qed.

Lemma backslash_u_printable (n : N) : Printable (backslash_u n).
Proof.
  unfold backslash_u, hex4.
  repeat constructor;
    apply hex_digit_printable, N.mod_lt; discriminate.
Qed.

Lemma escape_char_printable (c : char) : Printable (escape_char c).
Proof.
  unfold escape_char.
  repeat match goal with
         | |- context [if ?b then _ else _] => destruct b eqn:?
         end;
    try (repeat constructor; assumption).
  - apply backslash_u_printable.
  - apply Forall_app. split; apply backslash_u_printable.
Qed.

Lemma escaped_printable (s : str) : Printable (flat_map escape_char s).
Proof.
  induction s as [| c s IH]; simpl; [constructor |].
  apply Forall_app. split; [apply escape_char_printable | assumption].
Qed.

Ltac printable_parts :=
  unfold Printable, encode_string in *;
  repeat first
    [ assumption
    | apply Forall_nil
    | apply escaped_printable
    | apply Forall_cons; [reflexivity |]
    | apply Forall_app; split ].

Lemma json_dumps_printable (v : json) : Printable (json_dumps v).
Proof.
  induction v as [s | items IH | fields IH] using json_nested_ind.
  - simpl. printable_parts.
  - simpl. printable_parts.
    induction IH as [| x items Hx _ IHi]; [constructor |].
    destruct items as [| y items]; printable_parts.
  - simpl. printable_parts.
    induction IH as [| [k x] fields Hx _ IHf]; [constructor |].
    simpl in Hx. destruct fields as [| [k' y] fields]; printable_parts.
Qed.

(** X9: what [json.dumps] hands to [print], for the list of records and
    for the error object alike, is made of printable ASCII characters
    only; so it holds no line break and each of these [print] calls
    writes one line, whatever the paths, captions and messages contain. *)
Theorem json_output_is_one_line (v : json) :
  forallb printable (render (Json v)) = true /\
  ~ In 10 (render (Json v)) /\ ~ In 13 (render (Json v)).
Proof.
  pose proof (json_dumps_printable v) as H. simpl.
  unfold Printable in H. rewrite Forall_forall in H.
  repeat split.
  - apply forallb_forall. exact H.
  - intros Hin. apply H in Hin. discriminate.
  - intros Hin. apply H in Hin. discriminate.
Qed.

(** * The pipeline: the claims *)

Section ProgramFacts.

Variable U : UnicodeData.
Variable World : Type.
Variable infer : World -> str -> World * outcome.
Variable release : World -> World.
Variable out : codec.

Local Abbreviation process := (process_image U infer release).

(** [process_image], one case after the other. *)
Lemma process_image_cases (path : str) (st : state World) :
  process path st =
    let (w, o) := infer (world st) path in
    let finish log r :=
      ({| world := release w; stdout := stdout st;
          stderr := stderr st ++ log |}, Ok r) in
    match o with
    | Failed msg => finish [Text (error_line path msg)] None
    | Decoded text =>
        if is_empty (strip (clean_caption U text))
        then finish
               [Text (error_line path (of_string "Empty caption generated"))]
               None
        else
          ({| world := release w; stdout := stdout st;
              stderr := stderr st |}, Ok (Some (clean_caption U text)))
    end.
Proof.
  unfold process_image, try_finally, try_except, bind, run_model, cleanup.
  destruct (infer (world st) path) as [w [text | msg]]; simpl.
  - destruct (is_empty (strip (clean_caption U text))); reflexivity.
  - reflexivity.
Qed.

Lemma process_image_returns (path : str) (st : state World) :
  exists st' r, process path st = (st', Ok r).
Proof.
  rewrite process_image_cases.
  destruct (infer (world st) path) as [w [text | msg]]; simpl; eauto.
  destruct (is_empty (strip (clean_caption U text))); eauto.
Qed.

Lemma batch_loop_successes (paths : list str) :
  forall acc st,
    exists st',
      batch_loop U infer release paths acc st =
        (st', Ok (acc ++ successes (calls U infer release paths st))).
Proof.
  induction paths as [| path rest IH]; intros acc st; simpl.
  - exists st. unfold ret. now rewrite app_nil_r.
  - unfold bind.
    destruct (process_image_returns path st) as (st1 & r & E). rewrite E.
    destruct r as [c |].
    + destruct (IH (acc ++ [{| rec_path := path; rec_caption := c |}]) st1)
        as (st' & E').
      exists st'. rewrite E'. now rewrite <- app_assoc.
    + apply IH.
Qed.

Lemma calls_paths (paths : list str) :
  forall st, List.map fst (calls U infer release paths st) = paths.
Proof.
  induction paths as [| path rest IH]; intros st; simpl; [reflexivity |].
  destruct (process path st) as [st' r]. simpl. now rewrite IH.
Qed.

Lemma successes_subsequence (l : list (str * result (option str))) :
  subsequence (List.map rec_path (successes l)) (List.map fst l).
Proof.
  induction l as [| [path [[c |] | e]] l IH]; simpl;
    constructor; assumption.
Qed.

Lemma successes_length (l : list (str * result (option str))) :
  (length (successes l) <= length l)%nat.
Proof.
  induction l as [| [path [[c |] | e]] l IH]; simpl; lia.
Qed.

Lemma successes_in (l : list (str * result (option str))) (r : record) :
  In r (successes l) <-> In (rec_path r, Ok (Some (rec_caption r))) l.
Proof.
  induction l as [| [path [[c |] | e]] l IH]; simpl.
  - tauto.
  - rewrite IH. split.
    + intros [<- | H]; auto.
    + intros [[= E1 E2] | H]; [left | now right].
      destruct r; simpl in *. now subst.
  - rewrite IH. split; auto. intros [[=] | H]; auto.
  - rewrite IH. split; auto. intros [[=] | H]; auto.
Qed.

(** C1: a batch returns the records of exactly those calls of
    [process_image] that returned a caption, in the order of the input;
    so there are at most as many records as paths, their paths are a
    subsequence of the input, and a path for which [process_image] only
    returned null has no record. *)
Theorem generate_batch_captions_successes (paths : list str)
        (st : state World) :
  let made := calls U infer release paths st in
  (exists st',
     generate_batch_captions U infer release paths st
     = (st', Ok (successes made))) /\
  List.map fst made = paths /\
  (length (successes made) <= length paths)%nat /\
  subsequence (List.map rec_path (successes made)) paths /\
  (forall r, In r (successes made) <->
             In (rec_path r, Ok (Some (rec_caption r))) made) /\
  (forall path, (forall r, In (path, r) made -> r = Ok None) ->
                ~ In path (List.map rec_path (successes made))).
Proof.
  intros made. pose proof (calls_paths paths st) as Hp. fold made in Hp.
  repeat split.
  - apply (batch_loop_successes paths [] st).
  - assumption.
  - rewrite <- Hp, length_map. apply successes_length.
  - rewrite <- Hp. apply successes_subsequence.
  - apply successes_in.
  - apply successes_in.
  - intros path Hnull Hin. apply in_map_iff in Hin as (r & <- & Hr).
    apply successes_in in Hr. apply Hnull in Hr. discriminate.
Qed.



Lemma run_single (prog path : str) (st : state World) :
  run U infer release out [prog; path] st =
    match process path st with
    | (st', Ok (Some c)) =>
        if is_empty c then (st', 0)
        else if forallb (encodable out) c
        then ({| world := world st'; stdout := stdout st' ++ [Text c];
                 stderr := stderr st' |}, 0)
        else ({| world := world st'; stdout := stdout st';
                 stderr := stderr st' ++
                   [Json (JObj [(of_string "error",
                                 JStr (encode_error out c))])] |}, 1)
    | (st', _) => (st', 0)
    end.
Proof.
  unfold run, main, try_except, bind. simpl.
  destruct (process_image_returns path st) as (st' & r & E).
  unfold ret at 1. simpl. rewrite E.
  destruct r as [c |]; [| reflexivity].
  destruct (is_empty c); [reflexivity |].
  unfold print_out. simpl.
  destruct (forallb (encodable out) c); reflexivity.
Qed.



(** C8: with one path on the command line and [process_image] failing on
    it, nothing is printed on standard output, one line
    [Error processing <path>: <message>] is printed on the error stream
    and the exit status is 0. *)
Theorem single_image_failure (prog path : str) (st st' : state World) :
  process path st = (st', Ok None) ->
  run U infer release out [prog; path] st = (st', 0) /\
  stdout st' = stdout st /\
  exists msg, stderr st' = stderr st ++ [Text (error_line path msg)].
Proof.
  intros H. rewrite run_single, H. split; [reflexivity |].
  rewrite process_image_cases in H.
  destruct (infer (world st) path) as [w [text | msg]]; simpl in H.
  - destruct (is_empty (strip (clean_caption U text)));
      injection H as <-; [| discriminate]. simpl. eauto.
  - injection H as <-. simpl. eauto.
Qed.

(** C9: without a path on the command line the program prints the object
    [{"error": "list index out of range"}] on the error stream, nothing
    on standard output, and exits with status 1. *)
Theorem missing_argument (argv : list str) (st : state World) :
  (length argv <= 1)%nat ->
  run U infer release out argv st =
    ({| world := world st; stdout := stdout st;
        stderr := stderr st ++
          [Json (JObj [(of_string "error",
                        JStr (of_string "list index out of range"))])] |},
     1).
Proof.
  intros H.
  destruct argv as [| prog [| p argv]]; [| | simpl in H; lia];
    reflexivity.
Qed.

Lemma blank_strip (s : str) : forallb isspace s = true -> strip s = [].
Proof.
  intros H. unfold strip.
  replace (lstrip s) with (@nil char); [reflexivity |].
  induction s as [| c s IH]; [reflexivity |].
  simpl in *. apply andb_true_iff in H as [-> H]. auto.
Qed.

Lemma some_caption_not_blank (path : str) (st st' : state World) (c : str) :
  process path st = (st', Ok (Some c)) ->
  c <> [] /\ strip c <> [] /\ forallb isspace c = false.
Proof.
  intros H. rewrite process_image_cases in H.
  destruct (infer (world st) path) as [w [text | msg]]; simpl in H;
    [| discriminate].
  destruct (is_empty (strip (clean_caption U text))) eqn:E;
    [discriminate |].
  injection H as _ <-.
  assert (Hs : strip (clean_caption U text) <> [])
    by (intros Hs; rewrite Hs in E; discriminate).
  repeat split; auto.
  - intros Hn. rewrite Hn in Hs. now apply Hs.
  - destruct (forallb isspace (clean_caption U text)) eqn:B; auto.
    now apply blank_strip in B.
Qed.


Lemma match_here_nil (p : option char) : match_here U p [] = None.
Proof. unfold match_here. now destruct (at_boundary U p (hd_error [])). Qed.

(** A text the scan leaves as it is has no match at any position. *)
Lemma fixed_no_match (pre : str) :
  forall s p suf,
    Ascii s -> sub_scan U 0 p s = s -> s = pre ++ suf ->
    match_here U (last_seen p pre) suf = None.
Proof.
  induction pre as [| x pre IH]; intros s p suf Hs H E; simpl in E; subst s.
  - destruct suf as [| c suf]; [apply match_here_nil |].
    now destruct (fixed_cons U _ _ _ Hs H).
  - destruct (fixed_cons U _ _ _ Hs H) as [_ H'].
    inversion Hs; subst.
    apply (IH (pre ++ suf) (Some x) suf); auto.
Qed.

(** C2, amended: a caption that [process_image] returns is the cleaned
    text of the model and is not empty; when the model's text is ASCII,
    the caption is its own capitalisation (no lowercase letter first, no
    capital letter behind) and the pattern
    [\b(a picture|an image|a photo|a photograph) of\b] matches at no
    position of it.  A phrase that runs into a longer word stays. *)
Theorem returned_caption_is_clean (path : str) (st st' : state World)
        (c : str) :
  process path st = (st', Ok (Some c)) ->
  exists text,
    snd (infer (world st) path) = Decoded text /\
    c = clean_caption U text /\
    c <> [] /\
    (ascii_text text = true ->
     capitalize U c = c /\
     (exists x r, c = x :: r /\ ascii_lower_letter x = false /\
                  forallb (fun y => negb (ascii_upper_letter y)) r = true) /\
     (forall pre suf, c = pre ++ suf ->
                      match_here U (last_seen None pre) suf = None)).
Proof.
  intros H.
  destruct (some_caption_not_blank path st st' c H) as (Hne & _ & _).
  rewrite process_image_cases in H.
  destruct (infer (world st) path) as [w [text | msg]]; simpl in *;
    [| discriminate].
  destruct (is_empty (strip (clean_caption U text))); [discriminate |].
  injection H as _ <-. exists text. repeat split; auto.
  - apply ascii_text_Ascii in H.
    now destruct (clean_caption_fixed U text H) as (_ & _ & _ & E).
  - apply ascii_text_Ascii in H.
    destruct (clean_caption_fixed U text H) as (Ha & _ & _ & E).
    simpl in Ha, E. rewrite capitalize_ascii in E by assumption.
    destruct (clean_caption U text) as [| x r]; [contradiction |].
    exists x, r. injection E as Ex Er. inversion Ha as [| ? ? Hx Hr]; subst.
    repeat split.
    + clear Er. char_facts.
    + clear Ex Ha Hx Hne. revert Er.
      induction r as [| y r IH]; [reflexivity |].
      simpl. intros [= Ey Er]. inversion Hr as [| ? ? Hy Hr']; subst.
      rewrite (IH Hr' Er), andb_true_r.
      clear Er IH. char_facts.
  - intros pre suf E. apply ascii_text_Ascii in H.
    destruct (clean_caption_fixed U text H) as (Ha & Hr & _).
    now apply (fixed_no_match pre (clean_caption U text) None suf).
Qed.

End ProgramFacts.

(** * Concrete runs *)

(** C2, as stated, fails: "a photo offer" has no match of the pattern, is
    returned as "A photo offer" and contains the phrase "a photo of". *)
Lemma process_image_keeps_phrase :
  exists st',
    process_image ascii_only demo_model keep (of_string "offer.png") start
    = (st', Ok (Some (of_string "A photo offer"))) /\
    mentions_phrase ascii_only (of_string "A photo offer") = true.
Proof. eexists. split; reflexivity. Qed.

Lemma returned_caption_is_clean_witness :
  of_string "A dog running" <> [] /\
  capitalize ascii_only (of_string "A dog running")
  = of_string "A dog running" /\
  match_here ascii_only (Some 32) (of_string "dog running") = None.
Proof.
  destruct (returned_caption_is_clean ascii_only nat demo_model keep
              (of_string "dog.png") start _ (of_string "A dog running")
              eq_refl) as (text & H1 & _ & H2 & H3).
  injection H1 as <-.
  destruct (H3 eq_refl) as (H4 & _ & H5).
  split; [exact H2 | split; [exact H4 |]].
  exact (H5 (of_string "A ") (of_string "dog running") eq_refl).
Defined.

Lemma generate_batch_captions_successes_witness :
  let paths := [of_string "cat.png"; of_string "missing.png";
                of_string "blank.png"; of_string "dog.png"] in
  (exists st',
     generate_batch_captions ascii_only demo_model keep paths start
     = (st', Ok [ {| rec_path := of_string "cat.png";
                     rec_caption := of_string "A cat" |};
                  {| rec_path := of_string "dog.png";
                     rec_caption := of_string "A dog running" |} ])) /\
  ~ In (of_string "missing.png")
       (List.map rec_path
          (successes (calls ascii_only demo_model keep paths start))).
Proof.
  intros paths.
  destruct (generate_batch_captions_successes ascii_only nat demo_model keep
              paths start) as (H1 & _ & _ & _ & _ & H2).
  split; [exact H1 |].
  apply H2. simpl.
  intros r [H | [H | [H | [H | []]]]]; now inversion H.
Defined.


Lemma single_image_failure_witness :
  exists st',
    run ascii_only demo_model keep ascii_stdout
      [of_string "caption_generator.py"; of_string "missing.png"] start
    = (st', 0) /\
    stdout st' = [] /\
    stderr st' =
      [Text (of_string
         "Error processing missing.png: No such file or directory")].
Proof.
  eexists.
  destruct (single_image_failure ascii_only nat demo_model keep ascii_stdout
              (of_string "caption_generator.py") (of_string "missing.png")
              start _ eq_refl) as (H1 & H2 & _).
  split; [exact H1 | split; [exact H2 | reflexivity]].
Defined.

Lemma missing_argument_witness :
  snd (run ascii_only demo_model keep ascii_stdout [of_string "caption_generator.py"]
         start) = 1.
Proof.
  rewrite (missing_argument ascii_only nat demo_model keep ascii_stdout
             [of_string "caption_generator.py"] start); [reflexivity |].
  simpl. lia.
Defined.



(** * Beyond the claims: the pipeline *)

Section PipelineMore.

Variable U : UnicodeData.
Variable World : Type.
Variable infer : World -> str -> World * outcome.
Variable release : World -> World.
Variable out : codec.

Local Abbreviation process := (process_image U infer release).
Local Abbreviation batch := (generate_batch_captions U infer release).
Local Abbreviation made := (calls U infer release).
Local Abbreviation later := (after U infer release).

(** What one call of [process_image] does to the state. *)
Lemma process_image_effect (path : str) (st : state World) :
  exists r log,
    process path st =
      ({| world := release (fst (infer (world st) path));
          stdout := stdout st; stderr := stderr st ++ log |}, Ok r) /\
    ((r = None /\ exists msg, log = [Text (error_line path msg)]) \/
     (exists c, r = Some c /\ log = [])).
Proof.
  rewrite (process_image_cases U World infer release).
  destruct (infer (world st) path) as [w [text | msg]]; simpl.
  - destruct (is_empty (strip (clean_caption U text))).
    + exists None. eexists. split; [reflexivity |]. left. eauto.
    + exists (Some (clean_caption U text)), []. rewrite app_nil_r. eauto.
  - exists None. eexists. split; [reflexivity |]. left. eauto.
Qed.

Lemma batch_loop_after (paths : list str) :
  forall acc st,
    batch_loop U infer release paths acc st =
      (later paths st, Ok (acc ++ successes (made paths st))).
Proof.
  induction paths as [| path rest IH]; intros acc st; simpl.
  - unfold ret. now rewrite app_nil_r.
  - unfold bind.
    destruct (process_image_effect path st) as (r & log & E & _).
    rewrite E. simpl.
    destruct r as [c |]; rewrite IH; [now rewrite <- app_assoc | reflexivity].
Qed.

Lemma batch_after (paths : list str) (st : state World) :
  batch paths st = (later paths st, Ok (successes (made paths st))).
Proof. apply (batch_loop_after paths [] st). Qed.

Lemma after_world (paths : list str) :
  forall st,
    world (later paths st) =
      fold_left (fun w path => release (fst (infer w path))) paths (world st).
Proof.
  induction paths as [| path rest IH]; intros st; [reflexivity |].
  simpl. rewrite IH. f_equal.
  destruct (process_image_effect path st) as (r & log & E & _).
  now rewrite E.
Qed.

(** X1: the [finally] clause runs on every way out of [process_image],
    so the world after a call is the released world of that call; and a
    batch runs the model once per path, in order, releasing after each
    one, also after a failure. *)
Theorem resources_released (paths : list str) (st : state World) :
  (forall path,
     world (fst (process path st))
     = release (fst (infer (world st) path))) /\
  world (fst (batch paths st)) =
    fold_left (fun w path => release (fst (infer w path))) paths (world st).
Proof.
  split.
  - intros path.
    destruct (process_image_effect path st) as (r & log & E & _).
    now rewrite E.
  - rewrite batch_after. apply after_world.
Qed.

Lemma after_streams (paths : list str) :
  forall st,
    stdout (later paths st) = stdout st /\
    exists errs,
      stderr (later paths st) = stderr st ++ errs /\
      Forall2 (fun call l => exists msg,
                 l = Text (error_line (fst call) msg))
              (filter returned_null (made paths st)) errs /\
      (length (successes (made paths st)) + length errs
       = length paths)%nat.
Proof.
  induction paths as [| path rest IH]; intros st.
  - split; [reflexivity |]. exists []. simpl. rewrite app_nil_r.
    repeat split. constructor.
  - simpl.
    destruct (process_image_effect path st) as (r & log & E & Hr).
    rewrite E. simpl.
    destruct (IH {| world := release (fst (infer (world st) path));
                    stdout := stdout st; stderr := stderr st ++ log |})
      as (Hout & errs & Herr & Hall & Hlen).
    simpl in Hout, Herr. split; [assumption |].
    destruct Hr as [[-> (msg & ->)] | (c & -> & ->)]; simpl.
    + exists (Text (error_line path msg) :: errs).
      rewrite Herr, <- app_assoc.
      repeat split; [| simpl; lia].
      constructor; [now exists msg | assumption].
    + exists errs. rewrite !app_nil_r in *. rewrite Herr.
      repeat split; [assumption | simpl; lia].
Qed.

(** X2: a batch accounts for every path.  It returns the records of the
    calls of [process_image] that gave a caption and prints nothing on
    standard output; on the error stream it adds one print
    [Error processing <path>: <message>] for each call that gave null, in
    the order of the input and with the path of that call, and nothing
    else; so the number of records plus the number of these prints is the
    number of paths. *)
Theorem batch_accounts_for_every_path (paths : list str)
        (st : state World) :
  exists st' errs,
    batch paths st = (st', Ok (successes (made paths st))) /\
    stdout st' = stdout st /\
    stderr st' = stderr st ++ errs /\
    Forall2 (fun call l => exists msg,
               l = Text (error_line (fst call) msg))
            (filter returned_null (made paths st)) errs /\
    (length (successes (made paths st)) + length errs
     = length paths)%nat.
Proof.
  destruct (after_streams paths st) as (Hout & errs & Herr & Hall & Hlen).
  exists (later paths st), errs.
  rewrite batch_after. auto.
Qed.

Lemma calls_app (ps qs : list str) :
  forall st, made (ps ++ qs) st = made ps st ++ made qs (later ps st).
Proof.
  induction ps as [| p ps IH]; intros st; [reflexivity |].
  simpl. destruct (process p st) as [st1 r]. simpl. now rewrite IH.
Qed.

Lemma successes_app (l1 l2 : list (str * result (option str))) :
  successes (l1 ++ l2) = successes l1 ++ successes l2.
Proof.
  induction l1 as [| [path [[c |] | e]] l1 IH]; simpl; auto.
  now rewrite IH.
Qed.

(** X3: a batch over two lists of paths, one after the other, gives the
    records of the first list followed by those of the second, the second
    list being processed in the state the first one leaves. *)
Theorem batch_of_concatenation (ps qs : list str)
        (st st1 st2 : state World) (rs1 rs2 : list record) :
  batch ps st = (st1, Ok rs1) ->
  batch qs st1 = (st2, Ok rs2) ->
  batch (ps ++ qs) st = (st2, Ok (rs1 ++ rs2)).
Proof.
  rewrite !batch_after. intros [= <- <-] [= <- <-].
  rewrite calls_app, successes_app. unfold after.
  now rewrite fold_left_app.
Qed.

Lemma result_stateless (path : str) (st st0 : state World) :
  (forall w w' p, snd (infer w p) = snd (infer w' p)) ->
  snd (process path st) = snd (process path st0).
Proof.
  intros H. rewrite !(process_image_cases U World infer release).
  pose proof (H (world st) (world st0) path) as E.
  destruct (infer (world st) path) as [w o],
           (infer (world st0) path) as [w0 o0].
  simpl in E. subst o0. destruct o as [text | msg]; simpl; [| reflexivity].
  now destruct (is_empty (strip (clean_caption U text))).
Qed.

(** X4: when the model's answer depends on the path only, a batch gives
    every path, in input order and as often as it occurs, the record that
    [process_image] alone gives it, in whatever state. *)
Theorem batch_with_stateless_model (paths : list str)
        (st st0 : state World) :
  (forall w w' path, snd (infer w path) = snd (infer w' path)) ->
  snd (batch paths st)
  = Ok (flat_map (record_of U infer release st0) paths).
Proof.
  intros H. rewrite batch_after. simpl. f_equal.
  revert st. induction paths as [| path rest IH]; intros st; [reflexivity |].
  simpl. unfold record_of at 1.
  pose proof (result_stateless path st st0 H) as E.
  destruct (process path st) as [st1 r], (process path st0) as [st2 r0].
  simpl in E. subst r0.
  destruct r as [[c |] | e]; simpl; now rewrite IH.
Qed.

Lemma calls_in (paths : list str) :
  forall st path c,
    In (path, Ok (Some c)) (made paths st) ->
    In path paths /\
    exists s1 s2, process path s1 = (s2, Ok (Some c)).
Proof.
  induction paths as [| p rest IH]; intros st path c Hin; [contradiction |].
  simpl in Hin. destruct (process p st) as [st1 r] eqn:E.
  destruct Hin as [[= -> ->] | Hin].
  - split; [now left | eauto].
  - destruct (IH _ _ _ Hin) as (H1 & H2). split; [now right | assumption].
Qed.

(** X5: every record that a batch returns carries a path of the input
    and a caption that is neither empty nor white space only. *)
Theorem batch_records_not_blank (paths : list str)
        (st st' : state World) (rs : list record) (r : record) :
  batch paths st = (st', Ok rs) ->
  In r rs ->
  In (rec_path r) paths /\
  rec_caption r <> [] /\ forallb isspace (rec_caption r) = false.
Proof.
  rewrite batch_after. intros [= _ <-] Hin.
  apply successes_in in Hin.
  destruct (calls_in _ _ _ _ Hin) as (Hp & s1 & s2 & E).
  split; [assumption |].
  destruct (some_caption_not_blank U World infer release _ _ _ _ E)
    as (H1 & _ & H2).
  auto.
Qed.





End PipelineMore.

(** * Beyond the claims: the text normaliser *)

Lemma subsequence_nil {A : Type} (l : list A) : subsequence [] l.
Proof. induction l; constructor; assumption. Qed.

Lemma subsequence_refl {A : Type} (l : list A) : subsequence l l.
Proof. induction l; constructor; assumption. Qed.

Lemma subsequence_trans {A : Type} (l1 l2 l3 : list A) :
  subsequence l1 l2 -> subsequence l2 l3 -> subsequence l1 l3.
Proof.
  intros H12 H23. revert l1 H12.
  induction H23 as [| x l2 l3 _ IH | x l2 l3 _ IH]; intros l1 H12.
  - assumption.
  - inversion H12; subst; constructor; auto.
  - constructor. auto.
Qed.

Lemma subsequence_prefix {A : Type} (l ws : list A) :
  subsequence l (l ++ ws).
Proof.
  induction l; simpl; [apply subsequence_nil | now constructor].
Qed.

Lemma subsequence_suffix {A : Type} (ws l : list A) :
  subsequence l (ws ++ l).
Proof.
  induction ws; simpl; [apply subsequence_refl | now constructor].
Qed.

Lemma subsequence_length {A : Type} (l1 l2 : list A) :
  subsequence l1 l2 -> (length l1 <= length l2)%nat.
Proof. induction 1; simpl; lia. Qed.

Lemma str_eqb_eq (s t : str) : str_eqb s t = true -> s = t.
Proof.
  revert t. induction s as [| x s IH]; intros [| y t] H; simpl in H;
    try discriminate; [reflexivity |].
  apply andb_true_iff in H as [Hx Hs].
  apply N.eqb_eq in Hx. subst y. f_equal. now apply IH.
Qed.

Lemma same_letters_Forall2 (s t : str) :
  same_letters s t = true -> Forall2 same_letter s t.
Proof.
  unfold same_letters. intros H.
  apply andb_true_iff in H as [H Heq].
  apply andb_true_iff in H as [Hs Ht].
  apply str_eqb_eq in Heq.
  apply ascii_text_Ascii in Hs. apply ascii_text_Ascii in Ht.
  revert t Ht Heq.
  induction Hs as [| x s Hx Hs IH]; intros [| y t] Ht Heq;
    try discriminate; [constructor |].
  inversion Ht; subst. injection Heq as Exy Est.
  constructor; [now repeat split | now apply IH].
Qed.

Lemma same_letter_refl (s : str) : Ascii s -> Forall2 same_letter s s.
Proof.
  induction 1 as [| x s Hx _ IH]; constructor; [now repeat split | assumption].
Qed.

Section TextMore.

Variables U V : UnicodeData.

(** Two ASCII texts that differ in case only are read alike, whatever the
    tables say beyond ASCII. *)
Lemma lit_match_across (l x y : char) :
  same_letter x y -> lit_match U l x = lit_match V l y.
Proof.
  intros (Hx & Hy & E). unfold lit_match, tolower. rewrite Hx, Hy, E.
  destruct (l =? 32); [| reflexivity].
  apply eq_iff_eq_true. char_facts.
Qed.

Lemma is_word_across (x y : char) :
  same_letter x y -> is_word U x = is_word V y.
Proof.
  intros (Hx & Hy & E). unfold is_word, isalnum. rewrite Hx, Hy.
  apply eq_iff_eq_true. char_facts.
Qed.

Lemma hd_word_across (s t : str) :
  Forall2 same_letter s t ->
  word_opt U (hd_error s) = word_opt V (hd_error t).
Proof.
  intros [| x y s' t' H _]; [reflexivity |]. simpl.
  now apply is_word_across.
Qed.

Lemma eat_across (lit : str) :
  forall p q s t,
    Forall2 same_letter s t -> word_opt U p = word_opt V q ->
    match eat U lit p s, eat V lit q t with
    | Some (l1, r1), Some (l2, r2) =>
        word_opt U l1 = word_opt V l2 /\ Forall2 same_letter r1 r2
    | None, None => True
    | _, _ => False
    end.
Proof.
  induction lit as [| l lit IH]; intros p q s t Hst Hpq; simpl.
  - auto.
  - destruct Hst as [| x y s t Hxy Hst]; [exact I |].
    rewrite (lit_match_across l _ _ Hxy).
    destruct (lit_match V l y); [| exact I].
    apply IH; [assumption |]. simpl. now apply is_word_across.
Qed.

Lemma match_here_across (p q : option char) (s t : str) :
  Forall2 same_letter s t -> word_opt U p = word_opt V q ->
  match_here U p s = match_here V q t.
Proof.
  intros Hst Hpq. unfold match_here, at_boundary.
  rewrite Hpq, (hd_word_across _ _ Hst).
  destruct (xorb _ _); [| reflexivity].
  induction alternatives as [| alt alts IH]; [reflexivity |].
  simpl. rewrite IH.
  replace (try_alternative V q t alt) with (try_alternative U p s alt);
    [reflexivity |].
  unfold try_alternative.
  pose proof (eat_across (alt ++ tail_literal) p q _ _ Hst Hpq) as H.
  destruct (eat U (alt ++ tail_literal) p s) as [[l1 r1] |],
           (eat V (alt ++ tail_literal) q t) as [[l2 r2] |];
    try contradiction; [| reflexivity].
  destruct H as [Hl Hr]. unfold at_boundary.
  now rewrite Hl, (hd_word_across _ _ Hr).
Qed.

Lemma sub_scan_across (s t : str) :
  Forall2 same_letter s t ->
  forall k p q,
    word_opt U p = word_opt V q ->
    Forall2 same_letter (sub_scan U k p s) (sub_scan V k q t).
Proof.
  induction 1 as [| x y s t Hxy Hst IH]; intros k p q Hpq; [constructor |].
  assert (Hw : word_opt U (Some x) = word_opt V (Some y))
    by (simpl; now apply is_word_across).
  simpl. destruct k as [| k]; [| now apply IH].
  rewrite (match_here_across p q (x :: s) (y :: t)
             (Forall2_cons _ _ Hxy Hst) Hpq).
  destruct (match_here V q (y :: t)) as [[| j] |];
    try (constructor; [assumption |]); now apply IH.
Qed.

Lemma lstrip_across (s t : str) :
  Forall2 same_letter s t -> Forall2 same_letter (lstrip s) (lstrip t).
Proof.
  induction 1 as [| x y s t Hxy Hst IH]; [constructor |].
  simpl. rewrite (same_letter_space _ _ Hxy).
  destruct (isspace y); [assumption | now constructor].
Qed.

Lemma strip_across (s t : str) :
  Forall2 same_letter s t -> Forall2 same_letter (strip s) (strip t).
Proof.
  intros H. unfold strip, rstrip.
  now apply same_letter_rev, lstrip_across, same_letter_rev, lstrip_across.
Qed.

Lemma capitalize_across (s t : str) :
  Forall2 same_letter s t -> capitalize U s = capitalize V t.
Proof.
  intros H. destruct (same_letter_Ascii _ _ H) as [Hs Ht].
  rewrite (capitalize_ascii U s Hs), (capitalize_ascii V t Ht).
  clear Hs Ht. destruct H as [| x y s t Hxy Hst]; [reflexivity |].
  f_equal.
  - destruct Hxy as (Hx & Hy & E). char_facts.
  - induction Hst as [| a b s t (_ & _ & E) _ IH]; [reflexivity |].
    simpl. now rewrite E, IH.
Qed.

Lemma clean_caption_across (s t : str) :
  Forall2 same_letter s t -> clean_caption U s = clean_caption V t.
Proof.
  intros H. unfold clean_caption, re_sub.
  apply capitalize_across, strip_across, sub_scan_across; auto.
Qed.

(** X10: on ASCII text [clean_caption] looks at the letters, not at their
    case: two texts that differ in case only are cleaned to the same
    caption, and the Unicode tables play no part in it. *)
Theorem clean_caption_ignores_case (s t : str) :
  same_letters s t = true ->
  clean_caption U s = clean_caption V t.
Proof.
  intros H. now apply clean_caption_across, same_letters_Forall2.
Qed.

End TextMore.

Section TextMoreOne.

Variable U : UnicodeData.

Lemma unmatched_scan (s : str) :
  forall p, matches_anywhere U p s = false -> sub_scan U 0 p s = s.
Proof.
  induction s as [| c s IH]; intros p H; [reflexivity |].
  simpl in H |- *.
  destruct (match_here U p (c :: s)); [discriminate |].
  f_equal. now apply IH.
Qed.

(** X11: a text in which the pattern matches nowhere passes the removal
    step unchanged; [clean_caption] then only trims and capitalises
    it. *)
Theorem unmatched_text_only_trimmed (s : str) :
  matches_anywhere U None s = false ->
  re_sub U s = s /\ clean_caption U s = capitalize U (strip s).
Proof.
  intros H. apply unmatched_scan in H.
  unfold clean_caption, re_sub. now rewrite H.
Qed.

Lemma sub_scan_subsequence (s : str) :
  forall k p, subsequence (sub_scan U k p s) s.
Proof.
  induction s as [| c s IH]; intros k p; simpl; [constructor |].
  destruct k as [| k]; [| constructor; apply IH].
  destruct (match_here U p (c :: s)) as [[| j] |]; constructor; apply IH.
Qed.

Lemma strip_subsequence (s : str) : subsequence (strip s) s.
Proof.
  unfold strip.
  destruct (rstrip_split (lstrip s)) as (ws & E & _).
  destruct (lstrip_split s) as (ws' & E' & _).
  apply (subsequence_trans _ (lstrip s)).
  - rewrite E at 2. apply subsequence_prefix.
  - rewrite E' at 2. apply subsequence_suffix.
Qed.

(** X12: on ASCII text [clean_caption] only deletes characters and
    changes the case of letters: its result is, letter case apart, a
    subsequence of the input, so it is never longer than the input and
    nothing is inserted or reordered. *)
Theorem clean_caption_only_deletes (s : str) :
  ascii_text s = true ->
  (exists t, subsequence t s /\ Forall2 same_letter t (clean_caption U s)) /\
  (length (clean_caption U s) <= length s)%nat.
Proof.
  intros Hs. apply ascii_text_Ascii in Hs.
  set (t := strip (re_sub U s)).
  assert (Hsub : subsequence t s).
  { apply (subsequence_trans _ (re_sub U s));
      [apply strip_subsequence | apply sub_scan_subsequence]. }
  assert (Hsame : Forall2 same_letter t (clean_caption U s)).
  { apply capitalize_same_letter, strip_Ascii, sub_scan_ascii, Hs. }
  split; [now exists t |].
  rewrite <- (Forall2_length Hsame). now apply subsequence_length.
Qed.

(** X13: on ASCII text the result of [clean_caption] is ASCII text that
    neither starts nor ends with white space, so stripping it again, as
    the emptiness test of [process_image] does, changes nothing. *)
Theorem clean_caption_is_trimmed (s : str) :
  ascii_text s = true ->
  ascii_text (clean_caption U s) = true /\
  strip (clean_caption U s) = clean_caption U s /\
  starts_clean (clean_caption U s) /\
  starts_clean (rev (clean_caption U s)).
Proof.
  intros Hs. apply ascii_text_Ascii in Hs.
  destruct (clean_caption_fixed U s Hs) as (Ha & _ & Hstrip & _).
  simpl in Ha, Hstrip.
  split; [now apply ascii_text_Ascii |]. split; [assumption |].
  rewrite <- Hstrip. apply strip_clean.
Qed.

Lemma phrase_then_space (ph rest : str) :
  In ph phrases ->
  re_sub U (ph ++ 32 :: rest) = 32 :: sub_scan U 0 (Some 32) rest.
Proof.
  intros H. simpl in H.
  repeat (destruct H as [<- | H]; [reflexivity |]). contradiction.
Qed.

(** X14: a boilerplate phrase at the start of an ASCII text, in any
    letter case and followed by a space, is dropped without a trace: the
    caption is the one of the text behind it. *)
Theorem leading_phrase_dropped (ph w rest : str) :
  In ph phrases -> same_letters ph w = true -> ascii_text rest = true ->
  clean_caption U (w ++ 32 :: rest) = clean_caption U rest.
Proof.
  intros Hph Hw Hrest.
  apply same_letters_Forall2 in Hw. apply ascii_text_Ascii in Hrest.
  assert (Hall : Forall2 same_letter (w ++ 32 :: rest) (ph ++ 32 :: rest)).
  { apply Forall2_app.
    - clear Hph. induction Hw as [| x y ? ? (Hx & Hy & E) _ IH];
        constructor; [now repeat split | assumption].
    - apply (same_letter_refl (32 :: rest)). now constructor. }
  rewrite (clean_caption_across U U _ _ Hall).
  unfold clean_caption.
  rewrite (phrase_then_space ph rest Hph).
  rewrite (sub_scan_prev U (Some 32) None rest eq_refl).
  reflexivity.
Qed.

End TextMoreOne.

Section NullCaption.

Variable U : UnicodeData.
Variable World : Type.
Variable infer : World -> str -> World * outcome.
Variable release : World -> World.

(** X15: when the model's text is ASCII, [process_image] gives null for
    it exactly when nothing but white space is left once the matches of
    the pattern are removed. *)
Theorem null_iff_only_boilerplate (path text : str)
        (st st' : state World) (r : option str) :
  process_image U infer release path st = (st', Ok r) ->
  snd (infer (world st) path) = Decoded text ->
  ascii_text text = true ->
  (r = None <-> strip (re_sub U text) = []).
Proof.
  intros H Ht Ha. apply ascii_text_Ascii in Ha.
  rewrite (process_image_cases U World infer release) in H.
  destruct (infer (world st) path) as [w o]. simpl in Ht. subst o.
  simpl in H.
  destruct (clean_caption_fixed U text Ha) as (_ & _ & Hstrip & _).
  simpl in Hstrip. rewrite Hstrip in H.
  assert (Hcap : clean_caption U text = [] <-> strip (re_sub U text) = []).
  { unfold clean_caption.
    pose proof (strip_Ascii _ (sub_scan_ascii U text 0 None Ha)) as Hs.
    fold (re_sub U text) in Hs. rewrite (capitalize_ascii U _ Hs).
    destruct (strip (re_sub U text)); split; intros; try discriminate;
      reflexivity. }
  destruct (clean_caption U text) as [| x c] eqn:E; simpl in H;
    injection H as _ <-.
  - split; [intros _; now apply Hcap | reflexivity].
  - split; [discriminate |]. intros H0. apply Hcap in H0. discriminate.
Qed.

End NullCaption.

(** * Beyond the claims: concrete runs *)

Lemma batch_of_concatenation_witness :
  snd (generate_batch_captions ascii_only demo_model keep
         ([of_string "cat.png"]
          ++ [of_string "missing.png"; of_string "dog.png"]) start)
  = Ok [ {| rec_path := of_string "cat.png";
            rec_caption := of_string "A cat" |};
         {| rec_path := of_string "dog.png";
            rec_caption := of_string "A dog running" |} ].
Proof.
  rewrite (batch_of_concatenation ascii_only nat demo_model keep
             [of_string "cat.png"]
             [of_string "missing.png"; of_string "dog.png"]
             start _ _ _ _ eq_refl eq_refl).
  reflexivity.
Defined.

Lemma batch_with_stateless_model_witness :
  snd (generate_batch_captions ascii_only demo_model keep
         [of_string "dog.png"; of_string "blank.png"; of_string "dog.png"]
         start)
  = Ok [ {| rec_path := of_string "dog.png";
            rec_caption := of_string "A dog running" |};
         {| rec_path := of_string "dog.png";
            rec_caption := of_string "A dog running" |} ].
Proof.
  rewrite (batch_with_stateless_model ascii_only nat demo_model keep
             [of_string "dog.png"; of_string "blank.png";
              of_string "dog.png"] start start
             (fun _ _ _ => eq_refl)).
  reflexivity.
Defined.

Lemma batch_records_not_blank_witness :
  In (of_string "cat.png")
     [of_string "missing.png"; of_string "cat.png"] /\
  of_string "A cat" <> [] /\
  forallb isspace (of_string "A cat") = false.
Proof.
  exact (batch_records_not_blank ascii_only nat demo_model keep
           [of_string "missing.png"; of_string "cat.png"] start _ _
           {| rec_path := of_string "cat.png";
              rec_caption := of_string "A cat" |}
           eq_refl (or_introl eq_refl)).
Defined.


Lemma json_output_is_one_line_witness :
  ~ In 10 (render (Json (JList
       [json_of_record {| rec_path := [97; 10; 98];
                          rec_caption := [233; 34] |}]))).
Proof.
  exact (proj1 (proj2 (json_output_is_one_line (JList
       [json_of_record {| rec_path := [97; 10; 98];
                          rec_caption := [233; 34] |}])))).
Defined.

Lemma clean_caption_ignores_case_witness :
  clean_caption ascii_only (of_string "A PHOTO OF A Dog")
  = clean_caption ucd_excerpt (of_string "a photo of a dog").
Proof.
  exact (clean_caption_ignores_case ascii_only ucd_excerpt
           (of_string "A PHOTO OF A Dog") (of_string "a photo of a dog")
           eq_refl).
Defined.

Lemma unmatched_text_only_trimmed_witness :
  clean_caption ascii_only (of_string " two dogs, a photo offer ")
  = capitalize ascii_only (strip (of_string " two dogs, a photo offer ")).
Proof.
  exact (proj2 (unmatched_text_only_trimmed ascii_only
                  (of_string " two dogs, a photo offer ") eq_refl)).
Defined.

Lemma clean_caption_only_deletes_witness :
  (length (clean_caption ascii_only (of_string " a photo of A Dog "))
   <= 18)%nat.
Proof.
  exact (proj2 (clean_caption_only_deletes ascii_only
                  (of_string " a photo of A Dog ") eq_refl)).
Defined.

Lemma clean_caption_is_trimmed_witness :
  strip (clean_caption ascii_only (of_string " a photo of A Dog "))
  = clean_caption ascii_only (of_string " a photo of A Dog ").
Proof.
  exact (proj1 (proj2 (clean_caption_is_trimmed ascii_only
                         (of_string " a photo of A Dog ") eq_refl))).
Defined.

Lemma leading_phrase_dropped_witness :
  clean_caption ascii_only (of_string "An Image Of" ++ 32 :: of_string "a cat")
  = clean_caption ascii_only (of_string "a cat").
Proof.
  exact (leading_phrase_dropped ascii_only (of_string "an image of")
           (of_string "An Image Of") (of_string "a cat")
           (or_intror (or_introl eq_refl)) eq_refl eq_refl).
Defined.

Lemma null_iff_only_boilerplate_witness :
  @None str = None <-> strip (re_sub ascii_only (of_string " a picture of ")) = [].
Proof.
  exact (null_iff_only_boilerplate ascii_only nat demo_model keep
           (of_string "blank.png") (of_string " a picture of ")
           start _ None eq_refl eq_refl eq_refl).
Defined.


